(** * Lex-table construction (compiler/build_tables/build_lex_table.cc)

    A shallow embedding of [LexTableBuilder] and of the data it works on,
    followed by the properties of the builder that the specification states.

    The builder reaches outside its own file for rule constructors, the
    built-in symbols, the item-set derivative ([LexItemSet::transitions]),
    the rule queries ([get_completion_status], [get_metadata]) and the
    conflict manager.  Those are gathered in the class [Collaborators] and
    every definition of the builder is parametric in them. *)

From stdpp Require Import base option list countable gmap fin_sets.

Set Default Proof Using "Type".
Set Warnings "-register-all".
Local Open Scope Z_scope.

(** ** Data model *)

(** [rules::Symbol]: the builder reads [symbol.index] and [symbol.is_token]
    and compares symbols for equality. *)
Record Symbol := mkSymbol { index : Z; is_token : bool }.

Global Instance Symbol_eq_dec : EqDecision Symbol.
Proof. solve_decision. Defined.

Definition Symbol_to_pair (s : Symbol) : Z * bool := (index s, is_token s).
Definition Symbol_of_pair (p : Z * bool) : Symbol := mkSymbol p.1 p.2.

Lemma Symbol_of_to_pair s : Symbol_of_pair (Symbol_to_pair s) = s.
Proof. by destruct s. Qed.

Global Instance Symbol_countable : Countable Symbol :=
  inj_countable' Symbol_to_pair Symbol_of_pair Symbol_of_to_pair.

(** Modelled from the spec: [rules::CharacterSet], "a set of input
    byte/codepoint values"; [CharacterSet().include(c)] is the singleton. *)
Abbreviation CharacterSet := (gset N).

Definition CharacterSet_include (c : N) (cs : CharacterSet) : CharacterSet :=
  {[ c ]} ∪ cs.

(** The two metadata keys the builder names. *)
Inductive MetadataKey := START_TOKEN | PRECEDENCE.

Global Instance MetadataKey_eq_dec : EqDecision MetadataKey.
Proof. solve_decision. Defined.

Definition MetadataKey_to_bool (k : MetadataKey) : bool :=
  match k with START_TOKEN => false | PRECEDENCE => true end.
Definition MetadataKey_of_bool (b : bool) : MetadataKey :=
  if b then PRECEDENCE else START_TOKEN.

Lemma MetadataKey_of_to_bool k : MetadataKey_of_bool (MetadataKey_to_bool k) = k.
Proof. by destruct k. Qed.

Global Instance MetadataKey_countable : Countable MetadataKey :=
  inj_countable' MetadataKey_to_bool MetadataKey_of_bool MetadataKey_of_to_bool.

(** Modelled from the spec: rule trees, "character-set literal, sequence,
    choice (ordered alternatives), repetition, metadata-annotated subtree
    (carries key/value properties such as precedence or 'is start of a new
    token'), and the empty/blank rule". *)
Inductive Rule :=
| Blank
| CharacterSetRule (cs : CharacterSet)
| Choice (elements : list Rule)
| Metadata (r : Rule) (value : list (MetadataKey * Z))
| Repeat (content : Rule)
| Seq (left right : Rule).

Section Rule_ind.
Variable P : Rule → Prop.
Hypothesis HBlank : P Blank.
Hypothesis HCharacterSet : ∀ cs, P (CharacterSetRule cs).
Hypothesis HChoice : ∀ es, Forall P es → P (Choice es).
Hypothesis HMetadata : ∀ r v, P r → P (Metadata r v).
Hypothesis HRepeat : ∀ r, P r → P (Repeat r).
Hypothesis HSeq : ∀ l r, P l → P r → P (Seq l r).

Fixpoint Rule_ind_nested (r : Rule) : P r :=
    match r with
    | Blank => HBlank
    | CharacterSetRule cs => HCharacterSet cs
    | Choice es =>
        HChoice es
          ((fix go (l : list Rule) : Forall P l :=
              match l with
              | [] => Forall_nil_2 P
              | x :: l' => Forall_cons_2 P x l' (Rule_ind_nested x) (go l')
              end) es)
    | Metadata r' v => HMetadata r' v (Rule_ind_nested r')
    | Repeat r' => HRepeat r' (Rule_ind_nested r')
    | Seq l r' => HSeq l r' (Rule_ind_nested l) (Rule_ind_nested r')
    end.
End Rule_ind.

Global Instance Rule_eq_dec : EqDecision Rule.
Proof.
  refine (fix go (r1 r2 : Rule) {struct r1} : Decision (r1 = r2) :=
    let _ : EqDecision Rule := go in
    match r1, r2 with
    | Blank, Blank => left _
    | CharacterSetRule c1, CharacterSetRule c2 => cast_if (decide (c1 = c2))
    | Choice e1, Choice e2 => cast_if (decide (e1 = e2))
    | Metadata a1 v1, Metadata a2 v2 =>
        cast_if_and (decide (a1 = a2)) (decide (v1 = v2))
    | Repeat a1, Repeat a2 => cast_if (decide (a1 = a2))
    | Seq a1 b1, Seq a2 b2 => cast_if_and (decide (a1 = a2)) (decide (b1 = b2))
    | _, _ => right _
    end); abstract congruence.
Defined.

Definition Rule_leaf : Type := CharacterSet + list (MetadataKey * Z).

Fixpoint Rule_to_tree (r : Rule) : gen_tree Rule_leaf :=
  match r with
  | Blank => GenNode 0 []
  | CharacterSetRule cs => GenLeaf (inl cs)
  | Choice es => GenNode 1 (Rule_to_tree <$> es)
  | Metadata r' v => GenNode 2 [GenLeaf (inr v); Rule_to_tree r']
  | Repeat r' => GenNode 3 [Rule_to_tree r']
  | Seq l r' => GenNode 4 [Rule_to_tree l; Rule_to_tree r']
  end.

Fixpoint Rule_of_tree (t : gen_tree Rule_leaf) : option Rule :=
  match t with
  | GenNode 0%nat [] => Some Blank
  | GenLeaf (inl cs) => Some (CharacterSetRule cs)
  | GenNode 1%nat ts => Choice <$> mapM Rule_of_tree ts
  | GenNode 2%nat [GenLeaf (inr v); t'] => (λ r, Metadata r v) <$> Rule_of_tree t'
  | GenNode 3%nat [t'] => Repeat <$> Rule_of_tree t'
  | GenNode 4%nat [t1; t2] =>
      l ← Rule_of_tree t1; r ← Rule_of_tree t2; Some (Seq l r)
  | _ => None
  end.

Lemma Rule_of_to_tree r : Rule_of_tree (Rule_to_tree r) = Some r.
Proof.
  induction r as [|cs|es IH|r v IH|r IH|l r IHl IHr] using Rule_ind_nested;
    simpl; try done.
  - assert (mapM Rule_of_tree (Rule_to_tree <$> es) = Some es) as ->; [|done].
    induction IH as [|x l Hx _ IHl]; [done|].
    rewrite fmap_cons. cbn [mapM]. rewrite Hx. cbn [mbind option_bind]. by rewrite IHl.
  - by rewrite IH.
  - by rewrite IH.
  - by rewrite IHl, IHr.
Qed.

Global Instance Rule_countable : Countable Rule :=
  inj_countable Rule_to_tree Rule_of_tree Rule_of_to_tree.

(** [rule_ptr] is a shared pointer to an immutable rule; sharing is not
    observable, so a pointer is modelled by the tree it points to. *)
Abbreviation rule_ptr := Rule.

(** [LexItem]: the token being matched and the rule left to match. *)
Record LexItem := mkLexItem { lhs : Symbol; rule : rule_ptr }.

Global Instance LexItem_eq_dec : EqDecision LexItem.
Proof. solve_decision. Defined.

Definition LexItem_to_pair (i : LexItem) : Symbol * Rule := (lhs i, rule i).
Definition LexItem_of_pair (p : Symbol * Rule) : LexItem := mkLexItem p.1 p.2.

Lemma LexItem_of_to_pair i : LexItem_of_pair (LexItem_to_pair i) = i.
Proof. by destruct i. Qed.

Global Instance LexItem_countable : Countable LexItem :=
  inj_countable' LexItem_to_pair LexItem_of_pair LexItem_of_to_pair.

(** [LexItemSet]: a set of items compared by structural equality.  The loops
    of the builder visit [entries] in the order of [elements]. *)
Record LexItemSet := mkLexItemSet { entries : gset LexItem }.

Global Instance LexItemSet_eq_dec : EqDecision LexItemSet.
Proof. solve_decision. Defined.

Lemma mkLexItemSet_entries s : mkLexItemSet (entries s) = s.
Proof. by destruct s. Qed.

Global Instance LexItemSet_countable : Countable LexItemSet :=
  inj_countable' entries mkLexItemSet mkLexItemSet_entries.

Abbreviation LexStateId := Z.

(** Modelled from the spec: [PrecedenceRange], "a [min, max] interval over
    declared precedence values observed across an item set's items".  A
    default-constructed range is empty; [add] widens it to cover a value. *)
Module PrecedenceRange.
Record t := mk { min : Z; max : Z; empty : bool }.

Definition init : t := mk 0 0 true.

Definition add (value : Z) (r : t) : t :=
    if empty r then mk value value false
    else mk (Z.min (min r) value) (Z.max (max r) value) false.
End PrecedenceRange.

Global Instance PrecedenceRange_eq_dec : EqDecision PrecedenceRange.t.
Proof. solve_decision. Defined.

(** [CompletionStatus]: the two fields the builder reads. *)
Record CompletionStatus := mkCompletionStatus { is_done : bool; precedence : Z }.

(** Modelled from the spec: [LexAction], "one of: Advance (move to a target
    lex state id, carrying the precedence range achievable from there) or
    Accept (declare a specific token symbol matched, with a precedence
    value)", and the error action of a cell that holds neither. *)
Module LexAction.
Inductive t :=
  | Error
  | Accept (symbol : Symbol) (precedence : Z)
  | Advance (state_index : LexStateId) (precedence_range : PrecedenceRange.t).
End LexAction.

Global Instance LexAction_eq_dec : EqDecision LexAction.t.
Proof. solve_decision. Defined.

(** [LexState]: default action, explicit actions by character range and the
    token-start flag. *)
Record LexState := mkLexState {
  default_action : LexAction.t;
  actions : gmap CharacterSet LexAction.t;
  is_token_start : bool
}.

Global Instance LexState_eq_dec : EqDecision LexState.
Proof. solve_decision. Defined.

Definition LexState_init : LexState := mkLexState LexAction.Error ∅ false.

Definition set_default_action (a : LexAction.t) (s : LexState) : LexState :=
  mkLexState a (actions s) (is_token_start s).

Definition set_action (cs : CharacterSet) (a : LexAction.t) (s : LexState) : LexState :=
  mkLexState (default_action s) (<[cs := a]> (actions s)) (is_token_start s).

Definition set_is_token_start (b : bool) (s : LexState) : LexState :=
  mkLexState (default_action s) (actions s) b.

(** Modelled from the spec: [LexTable] (lex_table.h is not among the
    sources), "the ordered collection of lex states, with a reserved
    identifier for the universal error state; states are appended, never
    removed, and referenced only by index".  The reserved identifier lies
    outside the indices of [states] and designates [error_state];
    [add_state] appends a fresh state and returns its index.  The source
    indexes a vector: an identifier that is neither reserved nor an index is
    undefined behaviour there; here a read gives a fresh state and a write
    does nothing, and the properties below are stated for valid identifiers. *)
Module LexTable.
Record t := mk { states : list LexState; error_state : LexState }.

Definition init : t := mk [] LexState_init.

Definition ERROR_STATE_ID : LexStateId := -1.

Definition add_state (tbl : t) : LexStateId * t :=
    (Z.of_nat (length (states tbl)),
     mk (states tbl ++ [LexState_init]) (error_state tbl)).

Definition state (id : LexStateId) (tbl : t) : LexState :=
    if decide (id = ERROR_STATE_ID) then error_state tbl
    else if decide (0 ≤ id) then default LexState_init (states tbl !! Z.to_nat id)
    else LexState_init.

  (** A write through the reference [state(id)]. *)
Definition modify (f : LexState → LexState) (id : LexStateId) (tbl : t) : t :=
    if decide (id = ERROR_STATE_ID) then mk (states tbl) (f (error_state tbl))
    else if decide (0 ≤ id) then mk (alter f (Z.to_nat id) (states tbl)) (error_state tbl)
    else tbl.

Definition valid (id : LexStateId) (tbl : t) : Prop :=
    id = ERROR_STATE_ID ∨ (0 ≤ id < Z.of_nat (length (states tbl))).
End LexTable.

Global Instance LexTable_eq_dec : EqDecision LexTable.t.
Proof. solve_decision. Defined.

(** [LexicalGrammar]: each variable is represented by its [rule], the only
    field the builder reads. *)
Record LexicalGrammar := mkLexicalGrammar {
  variables : list rule_ptr;
  separators : list rule_ptr
}.

(** [ParseState] as the builder sees it: the set [expected_inputs()] and the
    field [lex_state_id] it assigns. *)
Record ParseState := mkParseState {
  expected_inputs : gset Symbol;
  lex_state_id : LexStateId
}.

Global Instance ParseState_eq_dec : EqDecision ParseState.
Proof. solve_decision. Defined.

Module ParseTable.
Record t := mk { states : list ParseState; symbols : gset Symbol }.
End ParseTable.

(** ** Collaborators of the builder

    Functions and constants declared in headers that are not part of the
    sources.  [transitions s] lists the entries of the map returned by
    [LexItemSet::transitions] in the order the map is iterated. *)
Class Collaborators := {
  Seq_build : list rule_ptr → rule_ptr;
  Metadata_build : rule_ptr → list (MetadataKey * Z) → rule_ptr;
  Repeat_build : rule_ptr → rule_ptr;
  Blank_build : rule_ptr;
  ERROR : Symbol;
  END_OF_INPUT : Symbol;
  transitions : LexItemSet → list (CharacterSet * LexItemSet);
  LexItem_is_token_start : LexItem → bool;
  get_completion_status : rule_ptr → CompletionStatus;
  get_metadata : rule_ptr → MetadataKey → PrecedenceRange.t;
  resolve : LexicalGrammar → LexAction.t → LexAction.t → bool
}.

(** ** The builder *)

Section LexTableBuilder.
Context `{!Collaborators}.
Variable lex_grammar : LexicalGrammar.

(** The constructor: every separator wrapped in a repeat, then the blank
    rule. *)
Definition separator_rules : list rule_ptr :=
  (Repeat_build <$> separators lex_grammar) ++ [Blank_build].

(** [lex_grammar.variables[symbol.index]]: indexing outside the vector is
    undefined in the source, [None] here. *)
Definition variable_rule (symbol : Symbol) : option rule_ptr :=
  if decide (0 ≤ index symbol) then variables lex_grammar !! Z.to_nat (index symbol)
  else None.

(** The vector [rules] that the body of the loop over the symbols fills. *)
Definition symbol_rules (symbol : Symbol) : option (list rule_ptr) :=
  if decide (symbol = ERROR) then Some []
  else if decide (symbol = END_OF_INPUT) then
    Some [CharacterSetRule (CharacterSet_include 0 ∅)]
  else if is_token symbol then
    rule ← variable_rule symbol;
    Some (match rule with
          | Choice elements => elements
          | _ => [rule]
          end)
  else Some [].

Definition separated_item (symbol : Symbol) (separator_rule rule : rule_ptr) : LexItem :=
  mkLexItem symbol
    (Seq_build [Metadata_build separator_rule [(START_TOKEN, 1); (PRECEDENCE, -1)];
                rule]).

(** The two inner loops: one insertion per rule and separator. *)
Definition insert_items (symbol : Symbol) (rules : list rule_ptr)
    (result : LexItemSet) : LexItemSet :=
  foldl (λ result rule,
           foldl (λ result separator_rule,
                    mkLexItemSet
                      ({[ separated_item symbol separator_rule rule ]} ∪ entries result))
                 result separator_rules)
        result rules.

Definition build_lex_item_set_step (result : option LexItemSet) (symbol : Symbol)
    : option LexItemSet :=
  result ← result;
  rules ← symbol_rules symbol;
  Some (insert_items symbol rules result).

Definition build_lex_item_set (symbols : gset Symbol) : option LexItemSet :=
  foldl build_lex_item_set_step (Some (mkLexItemSet ∅)) (elements symbols).

(** The mutable members of the builder. *)
Record Builder := mkBuilder {
  lex_state_ids : gmap LexItemSet LexStateId;
  lex_table : LexTable.t
}.

Definition Builder_init : Builder := mkBuilder ∅ LexTable.init.

Definition precedence_range_for_item_set (item_set : LexItemSet) : PrecedenceRange.t :=
  foldl (λ result item,
           let precedence_range := get_metadata (rule item) PRECEDENCE in
           PrecedenceRange.add (PrecedenceRange.max precedence_range)
             (PrecedenceRange.add (PrecedenceRange.min precedence_range) result))
        PrecedenceRange.init (elements (entries item_set)).

Definition accept_step (state_id : LexStateId) (tbl : LexTable.t) (item : LexItem)
    : LexTable.t :=
  let completion_status := get_completion_status (rule item) in
  if is_done completion_status then
    let current_action := default_action (LexTable.state state_id tbl) in
    let new_action := LexAction.Accept (lhs item) (precedence completion_status) in
    if resolve lex_grammar new_action current_action then
      LexTable.modify (set_default_action new_action) state_id tbl
    else tbl
  else tbl.

Definition add_accept_token_actions_on (items : list LexItem) (state_id : LexStateId)
    (tbl : LexTable.t) : LexTable.t :=
  foldl (accept_step state_id) tbl items.

Definition add_accept_token_actions (item_set : LexItemSet) (state_id : LexStateId)
    (tbl : LexTable.t) : LexTable.t :=
  add_accept_token_actions_on (elements (entries item_set)) state_id tbl.

Definition token_start_step (state_id : LexStateId) (tbl : LexTable.t) (item : LexItem)
    : LexTable.t :=
  if LexItem_is_token_start item then
    LexTable.modify (set_is_token_start true) state_id tbl
  else tbl.

Definition add_token_start (item_set : LexItemSet) (state_id : LexStateId)
    (tbl : LexTable.t) : LexTable.t :=
  foldl (token_start_step state_id) tbl (elements (entries item_set)).

Definition on_table (f : LexTable.t → LexTable.t) (b : Builder) : Builder :=
  mkBuilder (lex_state_ids b) (f (lex_table b)).

(** [add_lex_state], [populate_lex_state] and [add_advance_actions] call
    one another.  The passes are written over the recursive call [rec] to
    [add_lex_state]; [add_lex_state] closes the knot on a fuel that bounds
    the depth of the calls, and [None] means the fuel ran out. *)
Section passes.
Variable rec : LexItemSet → Builder → option (LexStateId * Builder).

Definition advance_step (state_id : LexStateId) (b : option Builder)
    (transition : CharacterSet * LexItemSet) : option Builder :=
  b ← b;
  let rule := transition.1 in
  let new_item_set := transition.2 in
  '(new_state_id, b) ← rec new_item_set b;
  let action :=
    LexAction.Advance new_state_id (precedence_range_for_item_set new_item_set) in
  if resolve lex_grammar action
       (default_action (LexTable.state state_id (lex_table b)))
  then Some (on_table (LexTable.modify (set_action rule action) state_id) b)
  else Some b.

Definition add_advance_actions_on (ts : list (CharacterSet * LexItemSet))
    (state_id : LexStateId) (b : Builder) : option Builder :=
  foldl (advance_step state_id) (Some b) ts.

Definition add_advance_actions_with (item_set : LexItemSet) (state_id : LexStateId)
    (b : Builder) : option Builder :=
  add_advance_actions_on (transitions item_set) state_id b.

Definition populate_lex_state_with (item_set : LexItemSet) (state_id : LexStateId)
    (b : Builder) : option Builder :=
  let b := on_table (add_accept_token_actions item_set state_id) b in
  b ← add_advance_actions_with item_set state_id b;
  Some (on_table (add_token_start item_set state_id) b).
End passes.

Fixpoint add_lex_state (fuel : nat) (item_set : LexItemSet) (b : Builder)
    : option (LexStateId * Builder) :=
  match fuel with
  | O => None
  | S fuel =>
      match lex_state_ids b !! item_set with
      | None =>
          let '(state_id, tbl) := LexTable.add_state (lex_table b) in
          let b := mkBuilder (<[item_set := state_id]> (lex_state_ids b)) tbl in
          b ← populate_lex_state_with (add_lex_state fuel) item_set state_id b;
          Some (state_id, b)
      | Some state_id => Some (state_id, b)
      end
  end.

Definition add_advance_actions (fuel : nat) := add_advance_actions_with (add_lex_state fuel).
Definition populate_lex_state (fuel : nat) := populate_lex_state_with (add_lex_state fuel).

(** The loop of [build] over the parse states: each gets the identifier of
    its item set. *)
Definition build_step (fuel : nat) (acc : option (list ParseState * Builder))
    (parse_state : ParseState) : option (list ParseState * Builder) :=
  '(done, b) ← acc;
  item_set ← build_lex_item_set (expected_inputs parse_state);
  '(id, b) ← add_lex_state fuel item_set b;
  Some (done ++ [mkParseState (expected_inputs parse_state) id], b).

Definition build_states (fuel : nat) (states : list ParseState) (b : Builder)
    : option (list ParseState * Builder) :=
  foldl (build_step fuel) (Some ([], b)) states.

Definition build_from (fuel : nat) (parse_table : ParseTable.t) (b : Builder)
    : option (ParseTable.t * Builder) :=
  '(states, b) ← build_states fuel (ParseTable.states parse_table) b;
  error_item_set ← build_lex_item_set (ParseTable.symbols parse_table);
  b ← populate_lex_state fuel error_item_set LexTable.ERROR_STATE_ID b;
  Some (ParseTable.mk states (ParseTable.symbols parse_table), b).

Definition build (fuel : nat) (parse_table : ParseTable.t) : option (ParseTable.t * Builder) :=
  build_from fuel parse_table Builder_init.

End LexTableBuilder.

(** [build_lex_table]: the table, and the parse table with its
    [lex_state_id]s assigned. *)
Definition build_lex_table `{!Collaborators} (fuel : nat) (table : ParseTable.t)
    (grammar : LexicalGrammar) : option (LexTable.t * ParseTable.t) :=
  '(table, b) ← build grammar fuel table;
  Some (lex_table b, table).

(** ** A concrete set of collaborators

    Used to run the builder on concrete grammars.  None of these functions
    is part of the sources; each follows the interface description of the
    specification. *)
Module Model.

(** Modelled from the spec: [rules::Seq::build] on a list of rules, "followed
    in sequence by"; the empty sequence is the blank rule. *)
Fixpoint Seq_build (rules : list Rule) : Rule :=
  match rules with
  | [] => Blank
  | [r] => r
  | r :: rs => Seq r (Seq_build rs)
  end.

(** Modelled from the spec: the value bound to a key by a metadata node,
    "key/value properties such as precedence or 'is start of a new token'". *)
Definition metadata_value (key : MetadataKey) (value : list (MetadataKey * Z)) : option Z :=
  snd <$> list_find (λ p, p.1 = key) value ≫= λ p, Some p.2.

(** Modelled from the spec: [get_completion_status], "whether it denotes
    'this token is fully matched right now' and, if so, at what precedence".
    A repetition is zero-or-more; a metadata node gives its own precedence to
    a completed subtree. *)
Fixpoint get_completion_status (r : Rule) : CompletionStatus :=
  match r with
  | Blank => mkCompletionStatus true 0
  | CharacterSetRule _ => mkCompletionStatus false 0
  | Choice es =>
      (fix first_done (l : list Rule) : CompletionStatus :=
         match l with
         | [] => mkCompletionStatus false 0
         | e :: l' =>
             let s := get_completion_status e in
             if is_done s then s else first_done l'
         end) es
  | Metadata r' v =>
      let s := get_completion_status r' in
      if is_done s then
        mkCompletionStatus true (default (precedence s) (metadata_value PRECEDENCE v))
      else s
  | Repeat _ => mkCompletionStatus true 0
  | Seq l r' =>
      if is_done (get_completion_status l) then get_completion_status r'
      else mkCompletionStatus false 0
  end.

(** Modelled from the spec: [get_metadata], "the precedence range
    contributed by this rule subtree": the values bound to the key anywhere
    in the subtree. *)
Fixpoint get_metadata (r : Rule) (key : MetadataKey) : PrecedenceRange.t :=
  match r with
  | Blank | CharacterSetRule _ => PrecedenceRange.init
  | Choice es =>
      (fix all (l : list Rule) : PrecedenceRange.t :=
         match l with
         | [] => PrecedenceRange.init
         | e :: l' =>
             let r1 := get_metadata e key in
             let r2 := all l' in
             if PrecedenceRange.empty r1 then r2
             else PrecedenceRange.add (PrecedenceRange.max r1)
                    (PrecedenceRange.add (PrecedenceRange.min r1) r2)
         end) es
  | Metadata r' v =>
      match metadata_value key v with
      | Some x => PrecedenceRange.add x (get_metadata r' key)
      | None => get_metadata r' key
      end
  | Repeat r' => get_metadata r' key
  | Seq l r' =>
      let r1 := get_metadata l key in
      let r2 := get_metadata r' key in
      if PrecedenceRange.empty r1 then r2
      else PrecedenceRange.add (PrecedenceRange.max r1)
             (PrecedenceRange.add (PrecedenceRange.min r1) r2)
  end.

(** Modelled from the spec: [LexItem::is_token_start], "true if any item in
    the set is positioned exactly at the start of a fresh token attempt": the
    rule still carries the start-of-token mark. *)
Definition LexItem_is_token_start (item : LexItem) : bool :=
  let r := get_metadata (rule item) START_TOKEN in
  negb (PrecedenceRange.empty r) && bool_decide (0 < PrecedenceRange.max r).

(** Modelled from the spec: the residual of a sequence whose left part has
    been consumed down to [l]. *)
Definition residual_seq (l r : Rule) : Rule :=
  match l with
  | Blank => r
  | _ => Seq l r
  end.

(** Modelled from the spec: the derivative of section 4.2, "the set of
    characters its current rule residual accepts and the resulting residual
    rule after consuming one such character". *)
Fixpoint rule_transitions (r : Rule) : list (CharacterSet * Rule) :=
  match r with
  | Blank => []
  | CharacterSetRule cs => [(cs, Blank)]
  | Choice es =>
      (fix all (l : list Rule) : list (CharacterSet * Rule) :=
         match l with
         | [] => []
         | e :: l' => rule_transitions e ++ all l'
         end) es
  | Metadata r' v => (λ t, (t.1, Metadata t.2 v)) <$> rule_transitions r'
  | Repeat c => (λ t, (t.1, residual_seq t.2 (Repeat c))) <$> rule_transitions c
  | Seq l r' =>
      ((λ t, (t.1, residual_seq t.2 r')) <$> rule_transitions l)
      ++ (if is_done (get_completion_status l) then rule_transitions r' else [])
  end.

(** Modelled from the spec: [LexItemSet::transitions], "group all items by
    identical outgoing character range, and for each group, synthesize a new
    item set composed of each item's post-consumption residual".  Ranges are
    grouped when identical; overlapping ranges are not split. *)
Definition merge_transition (lhs : Symbol) (m : gmap CharacterSet (gset LexItem))
    (t : CharacterSet * Rule) : gmap CharacterSet (gset LexItem) :=
  <[t.1 := {[ mkLexItem lhs t.2 ]} ∪ default ∅ (m !! t.1)]> m.

(** Modelled from the spec: the mapping from character ranges to successor
    item sets, listed in the order of the map. *)
Definition transitions (s : LexItemSet) : list (CharacterSet * LexItemSet) :=
  prod_map id mkLexItemSet <$>
    map_to_list
      (foldl (λ m item, foldl (merge_transition (lhs item)) m (rule_transitions (rule item)))
             ∅ (elements (entries s))).

(** Modelled from the spec: the conflict manager of section 4.4.  An empty
    cell yields to any action; between two accepts the higher precedence
    wins and, at equal precedence, the token declared earlier; an advance
    beats an accept only if the maximum of its precedence range strictly
    exceeds the precedence of the accept. *)
Definition resolve (_ : LexicalGrammar) (new_action old_action : LexAction.t) : bool :=
  match old_action, new_action with
  | LexAction.Error, _ => true
  | LexAction.Accept old_symbol old_precedence,
    LexAction.Accept new_symbol new_precedence =>
      if bool_decide (old_precedence < new_precedence) then true
      else if bool_decide (new_precedence < old_precedence) then false
      else bool_decide (index new_symbol < index old_symbol)
  | LexAction.Accept _ old_precedence, LexAction.Advance _ range =>
      bool_decide (old_precedence < PrecedenceRange.max range)
  | LexAction.Advance _ range, LexAction.Accept _ new_precedence =>
      bool_decide (PrecedenceRange.max range ≤ new_precedence)
  | _, _ => false
  end.

(** Modelled from the spec: the reserved end-of-input and error markers,
    two symbols distinct from each other and from every token. *)
Definition END_OF_INPUT : Symbol := mkSymbol (-1) true.

(** Modelled from the spec: the reserved error marker. *)
Definition ERROR : Symbol := mkSymbol (-2) true.

End Model.

Definition model : Collaborators := {|
  Seq_build := Model.Seq_build;
  Metadata_build := Metadata;
  Repeat_build := Repeat;
  Blank_build := Blank;
  ERROR := Model.ERROR;
  END_OF_INPUT := Model.END_OF_INPUT;
  transitions := Model.transitions;
  LexItem_is_token_start := Model.LexItem_is_token_start;
  get_completion_status := Model.get_completion_status;
  get_metadata := Model.get_metadata;
  resolve := Model.resolve
|}.

(** ** The passes in other orders, and the advance pass of the specification *)

Section Reference.
Context `{!Collaborators}.
Variable lex_grammar : LexicalGrammar.

Inductive Pass := AcceptPass | AdvancePass | TokenStartPass.

Definition run_pass (fuel : nat) (item_set : LexItemSet) (state_id : LexStateId)
    (p : Pass) (b : Builder) : option Builder :=
  match p with
  | AcceptPass => Some (on_table (add_accept_token_actions lex_grammar item_set state_id) b)
  | AdvancePass => add_advance_actions lex_grammar fuel item_set state_id b
  | TokenStartPass => Some (on_table (add_token_start item_set state_id) b)
  end.

(** The passes of [ps], one after the other. *)
Definition run_passes (fuel : nat) (item_set : LexItemSet) (state_id : LexStateId)
    (ps : list Pass) (b : Builder) : option Builder :=
  foldl (λ b p, b ≫= run_pass fuel item_set state_id p) (Some b) ps.

(** The advance pass in the words of the specification: the proposed action
    is folded "against whatever action (if any) already occupies that exact
    character range".  Successors are interned by the builder's own
    [add_lex_state]. *)
Definition advance_step_spec (fuel : nat) (state_id : LexStateId) (b : option Builder)
    (transition : CharacterSet * LexItemSet) : option Builder :=
  b ← b;
  '(new_state_id, b) ← add_lex_state lex_grammar fuel transition.2 b;
  let action :=
    LexAction.Advance new_state_id
      (precedence_range_for_item_set transition.2) in
  let stored := on_table (LexTable.modify (set_action transition.1 action) state_id) b in
  match actions (LexTable.state state_id (lex_table b)) !! transition.1 with
  | Some occupant =>
      if resolve lex_grammar action occupant then Some stored else Some b
  | None => Some stored
  end.

Definition add_advance_actions_spec (fuel : nat) (item_set : LexItemSet)
    (state_id : LexStateId) (b : Builder) : option Builder :=
  foldl (advance_step_spec fuel state_id) (Some b) (transitions item_set).

(** A set of item sets that contains every successor of its members: what a
    grammar whose rules have finitely many residuals provides. *)
Definition reach_closed (U : gset LexItemSet) : Prop :=
  set_Forall (λ s, Forall (λ t, t.2 ∈ U) (transitions s)) U.

(** Every token in the set has a rule in the grammar. *)
Definition symbols_defined (symbols : gset Symbol) : Prop :=
  set_Forall (λ s, is_Some (symbol_rules lex_grammar s)) symbols.

(** The identifiers in the interning table are indices of [states], and
    there is one state per interned item set. *)
Record Builder_wf (b : Builder) : Prop := {
  wf_ids : ∀ s id, lex_state_ids b !! s = Some id →
           0 ≤ id < Z.of_nat (length (LexTable.states (lex_table b)));
  wf_count : length (LexTable.states (lex_table b)) = size (lex_state_ids b)
}.

(** [b'] is a later state of the builder than [b]: the interning table
    only gained entries, each of them for a state appended since. *)
Record extends (b b' : Builder) : Prop := {
  ext_ids : lex_state_ids b ⊆ lex_state_ids b';
  ext_len : (length (LexTable.states (lex_table b))
             ≤ length (LexTable.states (lex_table b')))%nat;
  ext_count : (length (LexTable.states (lex_table b')) + size (lex_state_ids b)
               = length (LexTable.states (lex_table b)) + size (lex_state_ids b'))%nat;
  ext_new : ∀ s id, lex_state_ids b' !! s = Some id → lex_state_ids b !! s = None →
            Z.of_nat (length (LexTable.states (lex_table b))) ≤ id
            < Z.of_nat (length (LexTable.states (lex_table b')))
}.

(** The states of [tbl] whose identifier satisfies [P] read the same in
    [tbl']. *)
Definition untouched (P : LexStateId → Prop) (tbl tbl' : LexTable.t) : Prop :=
  ∀ id, LexTable.valid id tbl → P id → LexTable.state id tbl' = LexTable.state id tbl.

(** What a call [add_lex_state item_set] that returns [id] does to the
    builder. *)
Record interned (item_set : LexItemSet) (id : LexStateId) (b b' : Builder) : Prop := {
  int_ext : extends b b';
  int_id : lex_state_ids b' !! item_set = Some id;
  int_frame : untouched (λ _, True) (lex_table b) (lex_table b');
  int_dom : ∀ U, reach_closed U → item_set ∈ U →
            dom (lex_state_ids b) ⊆ U → dom (lex_state_ids b') ⊆ U
}.

(** What the advance pass over the transitions [ts] does to the builder
    when it works on the state [state_id]. *)
Record advanced (ts : list (CharacterSet * LexItemSet)) (state_id : LexStateId)
    (b b' : Builder) : Prop := {
  adv_ext : extends b b';
  adv_frame : untouched (λ id, id ≠ state_id) (lex_table b) (lex_table b');
  adv_default : default_action (LexTable.state state_id (lex_table b'))
                = default_action (LexTable.state state_id (lex_table b));
  adv_flag : is_token_start (LexTable.state state_id (lex_table b'))
             = is_token_start (LexTable.state state_id (lex_table b));
  adv_dom : ∀ U, reach_closed U → Forall (λ t, t.2 ∈ U) ts →
            dom (lex_state_ids b) ⊆ U → dom (lex_state_ids b') ⊆ U
}.

(** The alternatives of a symbol in the words of the specification: the
    end-of-input marker has the character set of the sentinel 0, a token has
    the alternatives of a top-level choice or else its whole rule, and the
    error marker has none. *)
Inductive alternative : Symbol → rule_ptr → Prop :=
| alt_end_of_input :
    END_OF_INPUT ≠ ERROR →
    alternative END_OF_INPUT (CharacterSetRule {[ 0%N ]})
| alt_choice symbol elements element :
    symbol ≠ ERROR → symbol ≠ END_OF_INPUT → is_token symbol = true →
    0 ≤ index symbol →
    variables lex_grammar !! Z.to_nat (index symbol) = Some (Choice elements) →
    element ∈ elements →
    alternative symbol element
| alt_rule symbol rule :
    symbol ≠ ERROR → symbol ≠ END_OF_INPUT → is_token symbol = true →
    0 ≤ index symbol →
    variables lex_grammar !! Z.to_nat (index symbol) = Some rule →
    (∀ elements, rule ≠ Choice elements) →
    alternative symbol rule.

(** A recursive call that behaves as [add_lex_state] does. *)
Definition rec_ok (rec : LexItemSet → Builder → option (LexStateId * Builder)) : Prop :=
  ∀ item_set b id b', rec item_set b = Some (id, b') → interned item_set id b b'.

(** [rec'] returns whatever [rec] returns. *)
Definition rec_le (rec rec' : LexItemSet → Builder → option (LexStateId * Builder)) : Prop :=
  ∀ item_set b r, rec item_set b = Some r → rec' item_set b = Some r.

(** The item sets of [U] that are not interned yet. *)
Definition unexplored (U : gset LexItemSet) (b : Builder) : nat := size (U ∖ dom (lex_state_ids b)).

(** Setting the token-start flag of one state, and the recursive calls that
    commute with it. *)
Definition flag (id : LexStateId) (tbl : LexTable.t) : LexTable.t :=
  LexTable.modify (set_is_token_start true) id tbl.

Definition flag_comm (id : LexStateId)
    (rec : LexItemSet → Builder → option (LexStateId * Builder)) : Prop :=
  ∀ item_set b, LexTable.valid id (lex_table b) →
    rec item_set (on_table (flag id) b)
    = prod_map (λ x, x) (on_table (flag id)) <$> rec item_set b.

(** The parse state holds the identifier under which its item set is
    interned. *)
Definition assigned (b : Builder) (p : ParseState) : Prop :=
  ∃ item_set, build_lex_item_set lex_grammar (expected_inputs p) = Some item_set
              ∧ lex_state_ids b !! item_set = Some (lex_state_id p).

(** The interning table is one-to-one, and every index of [states] is the
    identifier of an interned item set. *)
Record Builder_bij (b : Builder) : Prop := {
  bij_inj : ∀ s1 s2 id,
      lex_state_ids b !! s1 = Some id → lex_state_ids b !! s2 = Some id → s1 = s2;
  bij_surj : ∀ i, (i < length (LexTable.states (lex_table b)))%nat →
      ∃ s, lex_state_ids b !! s = Some (Z.of_nat i)
}.

(** The state [st] holds nothing but what the item set warrants: its
    default action is the error action or accepts the token of a completed
    item, each of its actions is the advance for a transition of the item set
    to the state of the successor, and its flag is set only if an item starts
    a token. *)
Record state_sound (b : Builder) (item_set : LexItemSet) (st : LexState) : Prop := {
  sound_default :
    default_action st = LexAction.Error
    ∨ ∃ item, item ∈ entries item_set
        ∧ is_done (get_completion_status (rule item)) = true
        ∧ default_action st
          = LexAction.Accept (lhs item) (precedence (get_completion_status (rule item)));
  sound_actions : ∀ cs a, actions st !! cs = Some a →
    ∃ successor new_state_id,
      (cs, successor) ∈ transitions item_set
      ∧ lex_state_ids b !! successor = Some new_state_id
      ∧ a = LexAction.Advance new_state_id (precedence_range_for_item_set successor);
  sound_flag : is_token_start st = true →
    ∃ item, item ∈ entries item_set ∧ LexItem_is_token_start item = true
}.

(** Every interned item set has a sound state. *)
Record Builder_sound (b : Builder) : Prop := {
  snd_wf : Builder_wf b;
  snd_bij : Builder_bij b;
  snd_states : ∀ s id, lex_state_ids b !! s = Some id →
      state_sound b s (LexTable.state id (lex_table b))
}.

(** The builder while it populates the state [state_id] for [item_set]:
    the state of an interned item set, or the error state. *)
Record populating (item_set : LexItemSet) (state_id : LexStateId) (b : Builder) : Prop := {
  pop_sound : Builder_sound b;
  pop_state : state_sound b item_set (LexTable.state state_id (lex_table b));
  pop_target : lex_state_ids b !! item_set = Some state_id
               ∨ state_id = LexTable.ERROR_STATE_ID
}.

(** A recursive call that keeps the builder sound. *)
Definition rec_sound (rec : LexItemSet → Builder → option (LexStateId * Builder)) : Prop :=
  ∀ item_set b id b', Builder_sound b → rec item_set b = Some (id, b') → Builder_sound b'.

(** Every interned item set outside [P] has all its successors interned. *)
Definition closed_except (P : LexItemSet → Prop) (b : Builder) : Prop :=
  ∀ s, is_Some (lex_state_ids b !! s) → ¬ P s →
       Forall (λ t, is_Some (lex_state_ids b !! t.2)) (transitions s).

(** A recursive call that keeps the interned item sets closed. *)
Definition rec_closed (rec : LexItemSet → Builder → option (LexStateId * Builder)) : Prop :=
  ∀ P item_set b id b', closed_except P b → rec item_set b = Some (id, b') →
                        closed_except P b'.

End Reference.

(** ** Concrete grammars *)

(** One token, a repetition of the character [a], and no separator.  Two
    parse states expect that token; a third expects every symbol of the
    grammar, so that its item set is the item set of the error state. *)
Definition a_star : Rule := Repeat (CharacterSetRule {[ 97%N ]}).
Definition a_star_grammar : LexicalGrammar := mkLexicalGrammar [a_star] [].
Definition token0 : Symbol := mkSymbol 0 true.
Definition token1 : Symbol := mkSymbol 1 true.
Definition a_star_table : ParseTable.t :=
  ParseTable.mk [mkParseState {[ token0 ]} 0; mkParseState {[ token0 ]} 0;
                 mkParseState {[ token0; Model.END_OF_INPUT ]} 0]
                {[ token0; Model.END_OF_INPUT ]}.

(** The item sets of that grammar: the start of the token, the set reached
    on [a], which is its own successor on [a], the set of the error state and
    the set reached from it on the sentinel. *)
Definition separator_prefix : Rule :=
  Metadata Blank [(START_TOKEN, 1); (PRECEDENCE, -1)].
Definition a_star_start : LexItemSet :=
  mkLexItemSet {[ mkLexItem token0 (Seq separator_prefix a_star) ]}.
Definition a_star_loop : LexItemSet := mkLexItemSet {[ mkLexItem token0 a_star ]}.
Definition a_star_error : LexItemSet :=
  mkLexItemSet
    {[ mkLexItem token0 (Seq separator_prefix a_star);
       mkLexItem Model.END_OF_INPUT
         (Seq separator_prefix (CharacterSetRule {[ 0%N ]})) ]}.
Definition end_of_input_done : LexItemSet :=
  mkLexItemSet {[ mkLexItem Model.END_OF_INPUT Blank ]}.
Definition a_star_universe : gset LexItemSet :=
  {[ a_star_start; a_star_loop; a_star_error; end_of_input_done ]}.

(** Two tokens: the character [a] at precedence 5, and [a] followed by [b].
    [after_a] is the item set reached on [a]: the first token is complete,
    the second can still advance on [b]. *)
Definition ab_grammar : LexicalGrammar :=
  mkLexicalGrammar
    [Metadata (CharacterSetRule {[ 97%N ]}) [(PRECEDENCE, 5)];
     Seq (CharacterSetRule {[ 97%N ]}) (CharacterSetRule {[ 98%N ]})]
    [].
Definition after_a : LexItemSet :=
  mkLexItemSet {[ mkLexItem token0 (Metadata Blank [(PRECEDENCE, 5)]);
                  mkLexItem token1 (CharacterSetRule {[ 98%N ]}) ]}.
Definition after_ab : LexItemSet := mkLexItemSet {[ mkLexItem token1 Blank ]}.

(** The builder at the moment [add_lex_state] populates the state of
    [after_a]: state 0 allocated and interned. *)
Definition after_a_builder : Builder :=
  mkBuilder {[ after_a := 0 ]} (LexTable.add_state LexTable.init).2.

(** The same builder once the accept pass has run: the default action of
    state 0 accepts the first token at precedence 5. *)
Definition after_a_accepted : Builder :=
  on_table (add_accept_token_actions (H := model) ab_grammar after_a 0) after_a_builder.

Global Instance symbols_defined_dec `{!Collaborators} g symbols :
  Decision (symbols_defined g symbols).
Proof. unfold symbols_defined. apply _. Defined.

Global Instance reach_closed_dec `{!Collaborators} U : Decision (reach_closed U).
Proof. unfold reach_closed. apply _. Defined.

Global Instance Builder_eq_dec : EqDecision Builder.
Proof. solve_decision. Defined.

Global Instance ParseTable_eq_dec : EqDecision ParseTable.t.
Proof. solve_decision. Defined.

Global Instance LexTable_valid_dec id tbl : Decision (LexTable.valid id tbl).
Proof. unfold LexTable.valid. apply _. Defined.

(** The table of [a_star_grammar]: the states of the two item sets of the
    token, the state of the third parse state, the state reached on the
    sentinel, and the error state. *)
Definition a_star_result : LexTable.t * ParseTable.t :=
  (LexTable.mk
     [mkLexState (LexAction.Accept token0 0) ∅ true;
      mkLexState (LexAction.Accept token0 0) ∅ false;
      mkLexState (LexAction.Accept token0 0) ∅ true;
      mkLexState (LexAction.Accept Model.END_OF_INPUT 0) ∅ false]
     (mkLexState (LexAction.Accept token0 0) ∅ true),
   ParseTable.mk
     [mkParseState {[ token0 ]} 0; mkParseState {[ token0 ]} 0;
      mkParseState {[ token0; Model.END_OF_INPUT ]} 2]
     {[ token0; Model.END_OF_INPUT ]}).

(** The builder of [a_star_grammar] once the start of the token is
    interned, and once every item set is. *)
Definition a_star_interned_start : Builder :=
  mkBuilder {[ a_star_start := 0; a_star_loop := 1 ]}
    (LexTable.mk
       [mkLexState (LexAction.Accept token0 0) ∅ true;
        mkLexState (LexAction.Accept token0 0) ∅ false]
       LexState_init).

Definition a_star_interned_all : Builder :=
  mkBuilder
    {[ a_star_start := 0; a_star_loop := 1; a_star_error := 2; end_of_input_done := 3 ]}
    (LexTable.mk
       [mkLexState (LexAction.Accept token0 0) ∅ true;
        mkLexState (LexAction.Accept token0 0) ∅ false;
        mkLexState (LexAction.Accept token0 0) ∅ true;
        mkLexState (LexAction.Accept Model.END_OF_INPUT 0) ∅ false]
       LexState_init).

Definition a_star_final : Builder :=
  mkBuilder (lex_state_ids a_star_interned_all) a_star_result.1.

(** The grammar of [a_star] with the space as separator. *)
Definition spaced_grammar : LexicalGrammar :=
  mkLexicalGrammar [a_star] [CharacterSetRule {[ 32%N ]}].

(** A parse table for [ab_grammar] with one parse state, which expects both
    tokens; the item set of that state; and what [build] leaves: state 0,
    of the start, advances on [a] to state 1, of [after_a], whose accept at
    precedence 5 keeps the advance on [b] out; state 2 is [after_ab]; the
    error state has the item set of the start. *)
Definition ab_table : ParseTable.t :=
  ParseTable.mk [mkParseState {[ token0; token1 ]} 0] {[ token0; token1 ]}.

Definition ab_start : LexItemSet :=
  mkLexItemSet
    {[ mkLexItem token0
         (Seq separator_prefix (Metadata (CharacterSetRule {[ 97%N ]}) [(PRECEDENCE, 5)]));
       mkLexItem token1
         (Seq separator_prefix
            (Seq (CharacterSetRule {[ 97%N ]}) (CharacterSetRule {[ 98%N ]}))) ]}.

Definition ab_start_state : LexState :=
  mkLexState LexAction.Error
    {[ ({[ 97%N ]} : gset N) := LexAction.Advance 1 (PrecedenceRange.mk 0 5 false) ]}
    true.

Definition ab_final : Builder :=
  mkBuilder {[ ab_start := 0; after_a := 1; after_ab := 2 ]}
    (LexTable.mk
       [ab_start_state;
        mkLexState (LexAction.Accept token0 5) ∅ false;
        mkLexState (LexAction.Accept token1 0) ∅ false]
       ab_start_state).

Definition ab_result : ParseTable.t :=
  ParseTable.mk [mkParseState {[ token0; token1 ]} 0] {[ token0; token1 ]}.

(** The builder for [after_a] once its advance pass has run: the successor
    is interned as state 1, and state 0 has no action for [b]. *)
Definition after_a_advanced : Builder :=
  mkBuilder {[ after_a := 0; after_ab := 1 ]}
    (LexTable.mk
       [mkLexState (LexAction.Accept token0 5) ∅ false;
        mkLexState (LexAction.Accept token1 0) ∅ false]
       LexState_init).


(** ** Reading and writing the table *)

Section LexTable_facts.
Implicit Types (tbl : LexTable.t) (id : LexStateId) (f : LexState → LexState).

Lemma state_modify_eq f id tbl :
  LexTable.valid id tbl →
  LexTable.state id (LexTable.modify f id tbl) = f (LexTable.state id tbl).
Proof.
  unfold LexTable.valid, LexTable.state, LexTable.modify.
  intros [->|[Hlo Hhi]]; [done|].
  repeat case_decide; try done; try lia. simpl.
  rewrite list_lookup_alter_eq.
  destruct (lookup_lt_is_Some_2 (LexTable.states tbl) (Z.to_nat id)) as [x ->]; [lia|done].
Qed.

Lemma state_modify_ne f id id' tbl :
  id ≠ id' → LexTable.state id' (LexTable.modify f id tbl) = LexTable.state id' tbl.
Proof.
  unfold LexTable.state, LexTable.modify. intros Hne.
  repeat case_decide; simpl; try done; try congruence.
  rewrite list_lookup_alter_ne; [done|lia].
Qed.

Lemma length_modify f id tbl :
  length (LexTable.states (LexTable.modify f id tbl)) = length (LexTable.states tbl).
Proof.
  unfold LexTable.modify. repeat case_decide; simpl; try done.
  by rewrite length_alter.
Qed.

Lemma valid_modify f id id' tbl :
  LexTable.valid id' (LexTable.modify f id tbl) ↔ LexTable.valid id' tbl.
Proof. unfold LexTable.valid. by rewrite length_modify. Qed.

Lemma modify_modify_comm f1 f2 id1 id2 tbl :
  id1 ≠ id2 →
  LexTable.modify f1 id1 (LexTable.modify f2 id2 tbl)
  = LexTable.modify f2 id2 (LexTable.modify f1 id1 tbl).
Proof.
  unfold LexTable.modify. intros Hne.
  repeat case_decide; simpl; try done; try congruence.
  f_equal. apply list_alter_alter_ne. lia.
Qed.

Lemma modify_modify_same f1 f2 id tbl :
  (∀ s, f1 (f2 s) = f2 (f1 s)) →
  LexTable.modify f1 id (LexTable.modify f2 id tbl)
  = LexTable.modify f2 id (LexTable.modify f1 id tbl).
Proof.
  unfold LexTable.modify. intros Hcomm.
  repeat case_decide; simpl; try done; try congruence.
  f_equal. rewrite !list_alter_alter_eq. apply list_alter_ext; [|done].
  intros; simpl; auto.
Qed.

Lemma state_add_state id tbl :
  LexTable.valid id tbl →
  LexTable.state id (LexTable.add_state tbl).2 = LexTable.state id tbl.
Proof.
  unfold LexTable.valid, LexTable.state, LexTable.add_state. simpl.
  intros [->|[Hlo Hhi]]; [done|].
  repeat case_decide; try done.
  rewrite lookup_app_l; [done|lia].
Qed.

Lemma state_add_state_new tbl :
  LexTable.state (LexTable.add_state tbl).1 (LexTable.add_state tbl).2 = LexState_init.
Proof.
  unfold LexTable.state, LexTable.add_state, LexTable.ERROR_STATE_ID. simpl.
  repeat case_decide; try done; try lia.
  rewrite Nat2Z.id, lookup_app_r, Nat.sub_diag; done.
Qed.

Lemma valid_add_state_new tbl :
  LexTable.valid (LexTable.add_state tbl).1 (LexTable.add_state tbl).2.
Proof.
  unfold LexTable.valid, LexTable.add_state. simpl. right.
  rewrite length_app. simpl. lia.
Qed.

Lemma valid_add_state id tbl :
  LexTable.valid id tbl → LexTable.valid id (LexTable.add_state tbl).2.
Proof.
  unfold LexTable.valid, LexTable.add_state. simpl.
  rewrite length_app. simpl. lia.
Qed.

Lemma add_state_fresh id tbl :
  LexTable.valid id tbl → id ≠ (LexTable.add_state tbl).1.
Proof.
  unfold LexTable.valid, LexTable.add_state, LexTable.ERROR_STATE_ID. simpl. lia.
Qed.

Lemma add_state_modify_comm f id tbl :
  LexTable.valid id tbl →
  LexTable.add_state (LexTable.modify f id tbl)
  = ((LexTable.add_state tbl).1, LexTable.modify f id (LexTable.add_state tbl).2).
Proof.
  unfold LexTable.valid, LexTable.add_state, LexTable.modify, LexTable.ERROR_STATE_ID.
  intros Hv. repeat case_decide; simpl; try done; try lia.
  rewrite length_alter, alter_app_l by lia. done.
Qed.

End LexTable_facts.

(** ** The item set of a set of symbols *)

Section build_lex_item_set_facts.
Context `{!Collaborators}.
Variable lex_grammar : LexicalGrammar.

Local Abbreviation separator_rules := (separator_rules lex_grammar).
Local Abbreviation symbol_rules := (symbol_rules lex_grammar).
Local Abbreviation insert_items := (insert_items lex_grammar).
Local Abbreviation build_lex_item_set := (build_lex_item_set lex_grammar).

Lemma elem_of_insert_separators symbol rule seps result item :
  item ∈ entries
    (foldl (λ result separator_rule,
              mkLexItemSet
                ({[ separated_item symbol separator_rule rule ]} ∪ entries result))
           result seps)
  ↔ item ∈ entries result
    ∨ ∃ separator_rule, separator_rule ∈ seps
        ∧ item = separated_item symbol separator_rule rule.
Proof.
  revert result. induction seps as [|sep seps IH]; intros result; simpl.
  - split; [auto|]. intros [?|(? & Hin & _)]; [done|]. by apply elem_of_nil in Hin.
  - rewrite IH. simpl. rewrite elem_of_union, elem_of_singleton.
    setoid_rewrite elem_of_cons. naive_solver.
Qed.

Lemma elem_of_insert_items symbol rules result item :
  item ∈ entries (insert_items symbol rules result)
  ↔ item ∈ entries result
    ∨ ∃ rule separator_rule, rule ∈ rules ∧ separator_rule ∈ separator_rules
        ∧ item = separated_item symbol separator_rule rule.
Proof.
  unfold insert_items. revert result.
  induction rules as [|r rules IH]; intros result; simpl.
  - split; [auto|]. intros [?|(? & ? & Hin & _)]; [done|]. by apply elem_of_nil in Hin.
  - rewrite IH, elem_of_insert_separators.
    setoid_rewrite elem_of_cons. naive_solver.
Qed.

Lemma foldl_build_step_None l :
  foldl (build_lex_item_set_step lex_grammar) None l = None.
Proof. by induction l. Qed.

(** The loop over the symbols, from any accumulated set. *)
Lemma build_lex_item_set_loop l result result' :
  foldl (build_lex_item_set_step lex_grammar) (Some result) l = Some result' →
  ∀ item, item ∈ entries result'
    ↔ item ∈ entries result
      ∨ ∃ symbol rules rule separator_rule,
          symbol ∈ l ∧ symbol_rules symbol = Some rules ∧ rule ∈ rules
          ∧ separator_rule ∈ separator_rules
          ∧ item = separated_item symbol separator_rule rule.
Proof.
  revert result. induction l as [|symbol l IH]; intros result; simpl.
  - intros [= <-] item. split; [auto|].
    intros [?|(? & ? & ? & ? & Hin & _)]; [done|]. by apply elem_of_nil in Hin.
  - destruct (symbol_rules symbol) as [rules|] eqn:Hrules; simpl.
    + intros Hfold item. rewrite (IH _ Hfold item), elem_of_insert_items.
      setoid_rewrite elem_of_cons. split.
      * intros [[?|(r & sep & ? & ? & ?)]|(s & rs & r & sep & ? & ? & ? & ? & ?)];
          [by left|right..].
        -- exists symbol, rules, r, sep. auto.
        -- exists s, rs, r, sep. auto.
      * intros [?|(s & rs & r & sep & [->|?] & Hrs & ? & ? & ?)]; [by auto|..].
        -- rewrite Hrules in Hrs. injection Hrs as <-. left. right. eauto.
        -- right. exists s, rs, r, sep. auto.
    + by rewrite foldl_build_step_None.
Qed.

Lemma build_lex_item_set_loop_total l result :
  Forall (λ s, is_Some (symbol_rules s)) l →
  is_Some (foldl (build_lex_item_set_step lex_grammar) (Some result) l).
Proof.
  intros Hl. revert result. induction Hl as [|s l [rules Hs] _ IH]; intros result; simpl.
  - by eexists.
  - rewrite Hs. simpl. apply IH.
Qed.

Lemma elem_of_build_lex_item_set symbols result item :
  build_lex_item_set symbols = Some result →
  item ∈ entries result
  ↔ ∃ symbol rules rule separator_rule,
      symbol ∈ symbols ∧ symbol_rules symbol = Some rules ∧ rule ∈ rules
      ∧ separator_rule ∈ separator_rules
      ∧ item = separated_item symbol separator_rule rule.
Proof.
  intros Hb. rewrite (build_lex_item_set_loop _ _ _ Hb item). simpl. split.
  - intros [[]%elem_of_empty|(s & rs & r & sep & Hs%elem_of_elements & ?)].
    by exists s, rs, r, sep.
  - intros (s & rs & r & sep & Hs%elem_of_elements & ?). right.
    by exists s, rs, r, sep.
Qed.

Lemma build_lex_item_set_total symbols :
  symbols_defined lex_grammar symbols → is_Some (build_lex_item_set symbols).
Proof.
  intros Hd. apply build_lex_item_set_loop_total.
  apply Forall_forall. intros s Hs. apply Hd. by apply elem_of_elements.
Qed.

(** The vector [rules] of a symbol holds exactly its alternatives. *)
Lemma symbol_rules_alternative symbol rules rule :
  symbol_rules symbol = Some rules →
  rule ∈ rules ↔ alternative lex_grammar symbol rule.
Proof.
  unfold symbol_rules, variable_rule.
  destruct (decide (symbol = ERROR)) as [->|Herr].
  { intros [= <-]. split; [by intros ?%elem_of_nil|]. by inversion 1. }
  destruct (decide (symbol = END_OF_INPUT)) as [->|Heoi].
  { intros [= <-]. unfold CharacterSet_include.
    rewrite (right_id_L ∅ (∪)), list_elem_of_singleton. split.
    - intros ->. by constructor.
    - by inversion 1. }
  destruct (is_token symbol) eqn:Htok; cycle 1.
  { intros [= <-]. split; [by intros ?%elem_of_nil|]. inversion 1; congruence. }
  destruct (decide (0 ≤ index symbol)) as [Hidx|Hidx]; [|done].
  destruct (variables lex_grammar !! Z.to_nat (index symbol)) as [r|] eqn:Hvar; [|done].
  simpl. intros [= <-]. split.
  - destruct r; try (intros ->%list_elem_of_singleton; by apply alt_rule).
    intros Hin. by eapply alt_choice.
  - intros Halt.
    destruct Halt as [?|s es e _ _ _ _ Hes Hel|s r' _ _ _ _ Hr Hnc]; [done|..].
    + rewrite Hvar in Hes. by injection Hes as ->.
    + rewrite Hvar in Hr. injection Hr as ->.
      destruct r' as [| |es| | |]; try (by apply list_elem_of_singleton).
      by destruct (Hnc es).
Qed.

End build_lex_item_set_facts.

(** ** How the builder's state evolves *)

Section builder_facts.
Context `{!Collaborators}.
Variable lex_grammar : LexicalGrammar.

Implicit Types (b : Builder) (tbl : LexTable.t) (id state_id : LexStateId).
Implicit Types (item_set : LexItemSet) (ts : list (CharacterSet * LexItemSet)).

Local Abbreviation add_lex_state := (add_lex_state lex_grammar).
Local Abbreviation add_advance_actions_on := (add_advance_actions_on lex_grammar).
Local Abbreviation advance_step := (advance_step lex_grammar).
Local Abbreviation populate_lex_state_with := (populate_lex_state_with lex_grammar).
Local Abbreviation add_accept_token_actions_on := (add_accept_token_actions_on lex_grammar).
Local Abbreviation add_accept_token_actions := (add_accept_token_actions lex_grammar).
Local Abbreviation accept_step := (accept_step lex_grammar).

(** A write that keeps a field of the state keeps it in every state. *)
Lemma state_modify_proj {A} (proj : LexState → A) f id id' tbl :
  (∀ s, proj (f s) = proj s) →
  proj (LexTable.state id' (LexTable.modify f id tbl)) = proj (LexTable.state id' tbl).
Proof.
  intros Hf. unfold LexTable.state, LexTable.modify.
  repeat case_decide; simpl; auto; try congruence.
  destruct (decide (Z.to_nat id = Z.to_nat id')) as [Heq|Hne].
  - rewrite <-Heq, list_lookup_alter_eq.
    destruct (LexTable.states tbl !! Z.to_nat id); simpl; auto.
  - by rewrite list_lookup_alter_ne.
Qed.

Lemma extends_refl b : extends b b.
Proof. split; [done|lia|lia|]. intros s id Hs Hn. congruence. Qed.

Lemma extends_trans b1 b2 b3 : extends b1 b2 → extends b2 b3 → extends b1 b3.
Proof.
  intros [Hi1 Hl1 Hc1 Hn1] [Hi2 Hl2 Hc2 Hn2]. split.
  - by etrans.
  - lia.
  - lia.
  - intros s id Hs3 Hs1. destruct (lex_state_ids b2 !! s) as [id2|] eqn:Hs2.
    + assert (id2 = id) as ->.
      { eapply lookup_weaken in Hs2; [|exact Hi2]. congruence. }
      specialize (Hn1 _ _ Hs2 Hs1). lia.
    + specialize (Hn2 _ _ Hs3 Hs2). lia.
Qed.

Lemma extends_on_table f b :
  (∀ tbl, length (LexTable.states (f tbl)) = length (LexTable.states tbl)) →
  extends b (on_table f b).
Proof.
  intros Hf. split; simpl; rewrite ?Hf; [done|lia|lia|].
  intros s id Hs Hn. congruence.
Qed.

Lemma extends_valid id b b' :
  extends b b' → LexTable.valid id (lex_table b) → LexTable.valid id (lex_table b').
Proof. intros [_ Hl _ _]. unfold LexTable.valid. lia. Qed.

Lemma extends_wf b b' : extends b b' → Builder_wf b → Builder_wf b'.
Proof.
  intros [Hi Hl Hc Hn] [Hids Hcount]. split.
  - intros s id Hs. destruct (lex_state_ids b !! s) as [id0|] eqn:Hs0.
    + assert (id0 = id) as ->.
      { eapply lookup_weaken in Hs0; [|exact Hi]. congruence. }
      specialize (Hids _ _ Hs0). lia.
    + specialize (Hn _ _ Hs Hs0). lia.
  - lia.
Qed.

Lemma extends_dom b b' : extends b b' → dom (lex_state_ids b) ⊆ dom (lex_state_ids b').
Proof. intros [Hi _ _ _]. by apply subseteq_dom. Qed.

Lemma extends_insert item_set b :
  lex_state_ids b !! item_set = None →
  extends b (mkBuilder (<[item_set := (LexTable.add_state (lex_table b)).1]> (lex_state_ids b))
                       (LexTable.add_state (lex_table b)).2).
Proof.
  intros Hnone. split; simpl.
  - by apply insert_subseteq.
  - rewrite length_app. lia.
  - rewrite length_app, map_size_insert_None by done. simpl. lia.
  - intros s id Hs Hn. rewrite length_app. simpl.
    destruct (decide (item_set = s)) as [->|Hne].
    + rewrite lookup_insert_eq in Hs. injection Hs as <-. lia.
    + rewrite lookup_insert_ne in Hs by done. congruence.
Qed.

Lemma untouched_refl P tbl : untouched P tbl tbl.
Proof. by intros id _ _. Qed.

Lemma untouched_trans P tbl1 tbl2 tbl3 :
  (length (LexTable.states tbl1) ≤ length (LexTable.states tbl2))%nat →
  untouched P tbl1 tbl2 → untouched P tbl2 tbl3 → untouched P tbl1 tbl3.
Proof.
  intros Hl H12 H23 id Hv HP. rewrite H23, H12; try done.
  unfold LexTable.valid in *. lia.
Qed.

Lemma untouched_weaken (P Q : LexStateId → Prop) tbl tbl' :
  (∀ id, Q id → P id) → untouched P tbl tbl' → untouched Q tbl tbl'.
Proof. intros HPQ Hu id Hv HQ. apply Hu; auto. Qed.

Lemma untouched_modify f state_id tbl :
  untouched (λ id, id ≠ state_id) tbl (LexTable.modify f state_id tbl).
Proof. intros id _ Hne. by apply state_modify_ne. Qed.

Lemma untouched_add_state tbl : untouched (λ _, True) tbl (LexTable.add_state tbl).2.
Proof. intros id Hv _. by apply state_add_state. Qed.

(** *** The accept pass and the token-start pass *)

Lemma accept_step_cases state_id tbl item :
  let new_action :=
    LexAction.Accept (lhs item) (precedence (get_completion_status (rule item))) in
  accept_step state_id tbl item = tbl
  ∨ (is_done (get_completion_status (rule item)) = true
     ∧ resolve lex_grammar new_action
         (default_action (LexTable.state state_id tbl)) = true
     ∧ accept_step state_id tbl item
       = LexTable.modify (set_default_action new_action) state_id tbl).
Proof.
  unfold accept_step. simpl.
  destruct (is_done _); [|by left].
  destruct (resolve _ _ _) eqn:Hr; [|by left]. by right.
Qed.

Lemma length_accept_on items state_id tbl :
  length (LexTable.states (add_accept_token_actions_on items state_id tbl))
  = length (LexTable.states tbl).
Proof.
  unfold add_accept_token_actions_on. revert tbl.
  induction items as [|item items IH]; intros tbl; simpl; [done|].
  rewrite IH. destruct (accept_step_cases state_id tbl item) as [->|(_ & _ & ->)]; [done|].
  apply length_modify.
Qed.

Lemma accept_on_untouched items state_id tbl :
  untouched (λ id, id ≠ state_id) tbl (add_accept_token_actions_on items state_id tbl).
Proof.
  unfold add_accept_token_actions_on. revert tbl.
  induction items as [|item items IH]; intros tbl; simpl; [apply untouched_refl|].
  eapply untouched_trans; [| |apply IH].
  - destruct (accept_step_cases state_id tbl item) as [->|(_ & _ & ->)]; [done|].
    by rewrite length_modify.
  - destruct (accept_step_cases state_id tbl item) as [->|(_ & _ & ->)];
      [apply untouched_refl|apply untouched_modify].
Qed.

Lemma accept_on_proj {A} (proj : LexState → A) items state_id id tbl :
  (∀ a s, proj (set_default_action a s) = proj s) →
  proj (LexTable.state id (add_accept_token_actions_on items state_id tbl))
  = proj (LexTable.state id tbl).
Proof.
  intros Hproj. unfold add_accept_token_actions_on. revert tbl.
  induction items as [|item items IH]; intros tbl; simpl; [done|].
  rewrite IH. destruct (accept_step_cases state_id tbl item) as [->|(_ & _ & ->)]; [done|].
  by apply state_modify_proj.
Qed.

Lemma token_start_step_cases state_id tbl item :
  token_start_step state_id tbl item = tbl
  ∨ token_start_step state_id tbl item
    = LexTable.modify (set_is_token_start true) state_id tbl.
Proof. unfold token_start_step. destruct (LexItem_is_token_start item); auto. Qed.

Lemma length_add_token_start item_set state_id tbl :
  length (LexTable.states (add_token_start item_set state_id tbl))
  = length (LexTable.states tbl).
Proof.
  unfold add_token_start. generalize (elements (entries item_set)) as items. intros items.
  revert tbl. induction items as [|item items IH]; intros tbl; simpl; [done|].
  rewrite IH. destruct (token_start_step_cases state_id tbl item) as [->| ->]; [done|].
  apply length_modify.
Qed.

Lemma add_token_start_untouched item_set state_id tbl :
  untouched (λ id, id ≠ state_id) tbl (add_token_start item_set state_id tbl).
Proof.
  unfold add_token_start. generalize (elements (entries item_set)) as items. intros items.
  revert tbl. induction items as [|item items IH]; intros tbl; simpl; [apply untouched_refl|].
  eapply untouched_trans; [| |apply IH].
  - destruct (token_start_step_cases state_id tbl item) as [->| ->]; [done|].
    by rewrite length_modify.
  - destruct (token_start_step_cases state_id tbl item) as [->| ->];
      [apply untouched_refl|apply untouched_modify].
Qed.

Lemma add_token_start_proj {A} (proj : LexState → A) item_set state_id id tbl :
  (∀ v s, proj (set_is_token_start v s) = proj s) →
  proj (LexTable.state id (add_token_start item_set state_id tbl))
  = proj (LexTable.state id tbl).
Proof.
  intros Hproj. unfold add_token_start.
  generalize (elements (entries item_set)) as items. intros items.
  revert tbl. induction items as [|item items IH]; intros tbl; simpl; [done|].
  rewrite IH. destruct (token_start_step_cases state_id tbl item) as [->| ->]; [done|].
  by apply state_modify_proj.
Qed.

(** The pass sets the flag when some item starts a token, and does nothing
    otherwise. *)
Lemma add_token_start_alt item_set state_id tbl :
  add_token_start item_set state_id tbl
  = if existsb LexItem_is_token_start (elements (entries item_set))
    then LexTable.modify (set_is_token_start true) state_id tbl
    else tbl.
Proof.
  unfold add_token_start. generalize (elements (entries item_set)) as items. intros items.
  assert (Hidem : ∀ tbl items,
    foldl (token_start_step state_id)
          (LexTable.modify (set_is_token_start true) state_id tbl) items
    = LexTable.modify (set_is_token_start true) state_id tbl).
  { clear. intros tbl items. induction items as [|item items IH]; simpl; [done|].
    unfold token_start_step at 2. destruct (LexItem_is_token_start item); [|done].
    rewrite <-IH at 2. f_equal.
    unfold LexTable.modify. repeat case_decide; simpl; try done.
    f_equal. rewrite list_alter_alter_eq. by apply list_alter_ext. }
  revert tbl. induction items as [|item items IH]; intros tbl; simpl; [done|].
  unfold token_start_step at 2. destruct (LexItem_is_token_start item); simpl.
  - apply Hidem.
  - apply IH.
Qed.

(** *** The advance pass, over any recursive call that behaves as
    [add_lex_state] does *)

Lemma foldl_advance_None rec state_id ts :
  foldl (advance_step rec state_id) None ts = None.
Proof. by induction ts. Qed.

Lemma add_advance_actions_on_cons rec t ts state_id b :
  add_advance_actions_on rec (t :: ts) state_id b
  = advance_step rec state_id (Some b) t ≫= add_advance_actions_on rec ts state_id.
Proof.
  unfold add_advance_actions_on. cbn [foldl].
  destruct (advance_step rec state_id (Some b) t); simpl; [done|].
  apply foldl_advance_None.
Qed.

Lemma add_advance_actions_on_snoc rec t ts state_id b :
  add_advance_actions_on rec (ts ++ [t]) state_id b
  = advance_step rec state_id (add_advance_actions_on rec ts state_id b) t.
Proof. unfold add_advance_actions_on. by rewrite foldl_app. Qed.

Lemma advance_step_Some rec state_id b t b' :
  advance_step rec state_id (Some b) t = Some b' →
  ∃ new_state_id b0,
    rec t.2 b = Some (new_state_id, b0)
    ∧ let action :=
        LexAction.Advance new_state_id (precedence_range_for_item_set t.2) in
      (resolve lex_grammar action
         (default_action (LexTable.state state_id (lex_table b0))) = false
       ∧ b' = b0)
      ∨ (resolve lex_grammar action
           (default_action (LexTable.state state_id (lex_table b0))) = true
         ∧ b' = on_table (LexTable.modify (set_action t.1 action) state_id) b0).
Proof.
  unfold advance_step. simpl.
  destruct (rec t.2 b) as [[new_state_id b0]|]; simpl; [|done].
  destruct (resolve _ _ _) eqn:Hr; intros [= <-]; exists new_state_id, b0; auto.
Qed.

Lemma advanced_nil state_id b : advanced [] state_id b b.
Proof. split; auto using extends_refl, untouched_refl. Qed.

Lemma advanced_app ts1 ts2 state_id b1 b2 b3 :
  advanced ts1 state_id b1 b2 → advanced ts2 state_id b2 b3 →
  advanced (ts1 ++ ts2) state_id b1 b3.
Proof.
  intros [He1 Hf1 Hd1 Hg1 Hu1] [He2 Hf2 Hd2 Hg2 Hu2]. split.
  - by eapply extends_trans.
  - eapply untouched_trans; [|done..]. by destruct He1.
  - congruence.
  - congruence.
  - intros U HU [H1 H2]%Forall_app Hdom. auto.
Qed.

Lemma advance_step_ok rec state_id b t b' :
  rec_ok rec → LexTable.valid state_id (lex_table b) →
  advance_step rec state_id (Some b) t = Some b' →
  advanced [t] state_id b b'.
Proof.
  intros Hrec Hv (new_state_id & b0 & Hrec0 & Hb')%advance_step_Some.
  destruct (Hrec _ _ _ _ Hrec0) as [Hext Hid Hframe Hdom].
  assert (advanced [t] state_id b b0) as Hb0.
  { split; [done| |by rewrite Hframe..|].
    - eapply untouched_weaken; [|done]. done.
    - intros U HU Ht Hd. apply Hdom; [done| |done]. by inversion Ht. }
  destruct Hb' as [[_ ->]|[_ ->]]; [done|].
  rewrite <-(app_nil_r [t]). eapply advanced_app; [done|]. split; simpl.
  - apply extends_on_table. intros. apply length_modify.
  - apply untouched_modify.
  - by apply state_modify_proj.
  - by apply state_modify_proj.
  - done.
Qed.

Lemma advance_on_ok rec ts state_id b b' :
  rec_ok rec → LexTable.valid state_id (lex_table b) →
  add_advance_actions_on rec ts state_id b = Some b' →
  advanced ts state_id b b'.
Proof.
  intros Hrec. revert b. induction ts as [|t ts IH]; intros b Hv.
  - intros [= <-]. apply advanced_nil.
  - rewrite add_advance_actions_on_cons.
    destruct (advance_step rec state_id (Some b) t) as [b1|] eqn:Hstep; [|done].
    simpl. intros Hrest.
    pose proof (advance_step_ok _ _ _ _ _ Hrec Hv Hstep) as H1.
    apply (advanced_app [t] ts _ _ _ _ H1). apply IH; [|done].
    eapply extends_valid; [|done]. by destruct H1.
Qed.

(** What populating the state [state_id] does, whatever the passes find. *)
Lemma populate_ok rec item_set state_id b b' :
  rec_ok rec → LexTable.valid state_id (lex_table b) →
  populate_lex_state_with rec item_set state_id b = Some b' →
  extends b b'
  ∧ untouched (λ id, id ≠ state_id) (lex_table b) (lex_table b')
  ∧ ∀ U, reach_closed U → item_set ∈ U →
         dom (lex_state_ids b) ⊆ U → dom (lex_state_ids b') ⊆ U.
Proof.
  intros Hrec Hv. unfold populate_lex_state_with, add_advance_actions_with.
  destruct (add_advance_actions_on _ _ _ _) as [b1|] eqn:Hadv; [|done].
  simpl. intros [= <-].
  apply advance_on_ok in Hadv as [He Hf _ _ Hd]; [|done|]; cycle 1.
  { simpl. unfold LexTable.valid. unfold add_accept_token_actions.
    by rewrite length_accept_on. }
  assert (extends b (on_table (add_accept_token_actions item_set state_id) b)) as He0.
  { apply extends_on_table. intros. apply length_accept_on. }
  split_and!.
  - eapply extends_trans; [done|]. eapply extends_trans; [done|].
    apply extends_on_table. intros. apply length_add_token_start.
  - simpl. eapply untouched_trans; [|apply accept_on_untouched|].
    { by rewrite length_accept_on. }
    eapply untouched_trans; [|exact Hf|apply add_token_start_untouched].
    by destruct He.
  - intros U HU Hin Hdom. simpl. apply Hd; [done| |done].
    by apply HU.
Qed.

Lemma add_lex_state_ok fuel : rec_ok (add_lex_state fuel).
Proof.
  induction fuel as [|fuel IH]; intros item_set b id b'; simpl; [done|].
  destruct (lex_state_ids b !! item_set) as [id0|] eqn:Hlook.
  - intros [= <- <-]. split; auto using extends_refl, untouched_refl.
  - destruct (populate_lex_state_with _ _ _ _) as [b1|] eqn:Hpop; [|done].
    simpl. intros [= <- <-].
    pose proof (extends_insert _ _ Hlook) as He0.
    apply populate_ok in Hpop as (He & Hf & Hd); [|done|apply valid_add_state_new].
    split.
    + by eapply extends_trans.
    + eapply lookup_weaken; [|by destruct He]. simpl. apply lookup_insert_eq.
    + intros id Hv _. simpl in Hf. rewrite Hf.
      * by apply state_add_state.
      * by apply valid_add_state.
      * by apply add_state_fresh.
    + intros U HU Hin Hdom. apply Hd; [done..|]. simpl.
      rewrite dom_insert_L. set_solver.
Qed.

End builder_facts.

(** ** Fuel, and termination of the exploration *)

Section termination.
Context `{!Collaborators}.
Variable lex_grammar : LexicalGrammar.

Implicit Types (b : Builder) (tbl : LexTable.t) (id state_id : LexStateId).
Implicit Types (item_set : LexItemSet) (ts : list (CharacterSet * LexItemSet)).
Implicit Types (U : gset LexItemSet).

Local Abbreviation add_lex_state := (add_lex_state lex_grammar).
Local Abbreviation add_advance_actions_on := (add_advance_actions_on lex_grammar).
Local Abbreviation advance_step := (advance_step lex_grammar).
Local Abbreviation populate_lex_state_with := (populate_lex_state_with lex_grammar).
Local Abbreviation populate_lex_state := (populate_lex_state lex_grammar).

Lemma advance_step_mono rec rec' state_id b t b' :
  rec_le rec rec' →
  advance_step rec state_id (Some b) t = Some b' →
  advance_step rec' state_id (Some b) t = Some b'.
Proof.
  intros Hle. unfold advance_step. simpl.
  destruct (rec t.2 b) as [r|] eqn:Hrec; [|done].
  by rewrite (Hle _ _ _ Hrec).
Qed.

Lemma advance_on_mono rec rec' ts state_id b b' :
  rec_le rec rec' →
  add_advance_actions_on rec ts state_id b = Some b' →
  add_advance_actions_on rec' ts state_id b = Some b'.
Proof.
  intros Hle. revert b. induction ts as [|t ts IH]; intros b; [done|].
  rewrite !(add_advance_actions_on_cons lex_grammar).
  destruct (advance_step rec state_id (Some b) t) as [b1|] eqn:Hstep; [|done].
  rewrite (advance_step_mono _ _ _ _ _ _ Hle Hstep). simpl. apply IH.
Qed.

Lemma populate_mono rec rec' item_set state_id b b' :
  rec_le rec rec' →
  populate_lex_state_with rec item_set state_id b = Some b' →
  populate_lex_state_with rec' item_set state_id b = Some b'.
Proof.
  intros Hle. unfold populate_lex_state_with, add_advance_actions_with.
  destruct (add_advance_actions_on rec _ _ _) as [b1|] eqn:Hadv; [|done].
  by rewrite (advance_on_mono _ _ _ _ _ _ Hle Hadv).
Qed.

(** More fuel does not change a result. *)
Lemma add_lex_state_fuel_mono fuel fuel' :
  (fuel ≤ fuel')%nat → rec_le (add_lex_state fuel) (add_lex_state fuel').
Proof.
  revert fuel'. induction fuel as [|fuel IH]; intros fuel' Hle item_set b r; [done|].
  destruct fuel' as [|fuel']; [lia|]. simpl.
  destruct (lex_state_ids b !! item_set); [done|].
  destruct (populate_lex_state_with (add_lex_state fuel) _ _ _) as [b1|] eqn:Hpop; [|done].
  eapply populate_mono in Hpop; [|apply (IH fuel'); lia].
  by rewrite Hpop.
Qed.

Lemma populate_lex_state_fuel_mono fuel fuel' item_set state_id b b' :
  (fuel ≤ fuel')%nat →
  populate_lex_state fuel item_set state_id b = Some b' →
  populate_lex_state fuel' item_set state_id b = Some b'.
Proof. intros Hle. apply populate_mono. by apply add_lex_state_fuel_mono. Qed.

Lemma unexplored_mono U b b' :
  extends b b' → (unexplored U b' ≤ unexplored U b)%nat.
Proof.
  intros He%extends_dom. unfold unexplored.
  apply subseteq_size. set_solver.
Qed.

Lemma unexplored_insert U item_set id tbl b :
  item_set ∈ U → lex_state_ids b !! item_set = None →
  (unexplored U (mkBuilder (<[item_set := id]> (lex_state_ids b)) tbl)
   < unexplored U b)%nat.
Proof.
  intros Hin Hnone%not_elem_of_dom. unfold unexplored. simpl.
  apply subset_size. rewrite dom_insert_L. set_solver.
Qed.

Lemma advance_on_total U rec n ts state_id b :
  rec_ok rec →
  (∀ item_set b, item_set ∈ U → (unexplored U b < n)%nat → is_Some (rec item_set b)) →
  Forall (λ t, t.2 ∈ U) ts → (unexplored U b < n)%nat →
  is_Some (add_advance_actions_on rec ts state_id b).
Proof.
  intros Hok Hrec Hts. revert b.
  induction Hts as [|t ts Ht _ IH]; intros b Hb; [by eexists|].
  rewrite (add_advance_actions_on_cons lex_grammar).
  destruct (Hrec t.2 b Ht Hb) as [[new_state_id b0] Hrec0].
  assert (∃ b1, advance_step rec state_id (Some b) t = Some b1
                ∧ lex_state_ids b1 = lex_state_ids b0) as (b1 & -> & Hids).
  { unfold advance_step. simpl. rewrite Hrec0. simpl.
    destruct (resolve _ _ _); eexists; split; done. }
  simpl. apply IH.
  apply Hok in Hrec0 as [He _ _ _]. apply (unexplored_mono U) in He.
  unfold unexplored in *. rewrite Hids. lia.
Qed.

(** With more fuel than there are item sets left to intern, the call
    returns. *)
Lemma add_lex_state_total U fuel item_set b :
  reach_closed U → item_set ∈ U → (unexplored U b < fuel)%nat →
  is_Some (add_lex_state fuel item_set b).
Proof.
  intros HU. revert item_set b.
  induction fuel as [|fuel IH]; intros item_set b Hin Hb; [lia|]. simpl.
  destruct (lex_state_ids b !! item_set) as [id|] eqn:Hlook; [by eexists|].
  pose proof (unexplored_insert U item_set (LexTable.add_state (lex_table b)).1
                (LexTable.add_state (lex_table b)).2 b Hin Hlook) as Hlt.
  unfold populate_lex_state_with, add_advance_actions_with.
  destruct (advance_on_total U (add_lex_state fuel) fuel (transitions item_set)
              (LexTable.add_state (lex_table b)).1
              (on_table (add_accept_token_actions lex_grammar item_set
                           (LexTable.add_state (lex_table b)).1)
                 (mkBuilder (<[item_set := (LexTable.add_state (lex_table b)).1]>
                               (lex_state_ids b))
                            (LexTable.add_state (lex_table b)).2)))
    as [b1 Hb1].
  - apply add_lex_state_ok.
  - intros s b0 Hs Hb0. by apply IH.
  - by apply HU.
  - unfold unexplored in *. simpl in *. lia.
  - simpl in Hb1. rewrite Hb1. by eexists.
Qed.

Lemma populate_lex_state_total U fuel item_set state_id b :
  reach_closed U → item_set ∈ U → (unexplored U b < fuel)%nat →
  is_Some (populate_lex_state fuel item_set state_id b).
Proof.
  intros HU Hin Hb.
  unfold populate_lex_state, populate_lex_state_with, add_advance_actions_with.
  destruct (advance_on_total U (add_lex_state fuel) fuel (transitions item_set) state_id
              (on_table (add_accept_token_actions lex_grammar item_set state_id) b))
    as [b1 Hb1].
  - apply add_lex_state_ok.
  - intros s b0 Hs Hb0. by apply (add_lex_state_total U).
  - by apply HU.
  - done.
  - rewrite Hb1. by eexists.
Qed.

End termination.

(** ** What the advance pass stores *)

Section advance_cells.
Context `{!Collaborators}.
Variable lex_grammar : LexicalGrammar.

Implicit Types (b : Builder) (tbl : LexTable.t) (id state_id : LexStateId).
Implicit Types (item_set : LexItemSet) (ts : list (CharacterSet * LexItemSet)).

Local Abbreviation add_lex_state := (add_lex_state lex_grammar).
Local Abbreviation add_advance_actions_on := (add_advance_actions_on lex_grammar).
Local Abbreviation advance_step := (advance_step lex_grammar).

(** One turn of the loop: the successor is interned, and the state being
    populated gets the advance action when it wins against the default
    action stored in that state; nothing else of the state changes. *)
Lemma advance_step_cell rec state_id b t b1 :
  rec_ok rec → LexTable.valid state_id (lex_table b) →
  advance_step rec state_id (Some b) t = Some b1 →
  ∃ new_state_id,
    lex_state_ids b1 !! t.2 = Some new_state_id
    ∧ LexTable.state state_id (lex_table b1)
      = let action :=
          LexAction.Advance new_state_id (precedence_range_for_item_set t.2) in
        if resolve lex_grammar action
             (default_action (LexTable.state state_id (lex_table b)))
        then set_action t.1 action (LexTable.state state_id (lex_table b))
        else LexTable.state state_id (lex_table b).
Proof.
  intros Hrec Hv (new_state_id & b0 & Hrec0 & Hb1)%advance_step_Some.
  destruct (Hrec _ _ _ _ Hrec0) as [Hext Hid Hframe _].
  exists new_state_id. simpl in *.
  rewrite (Hframe state_id Hv I) in Hb1.
  destruct Hb1 as [[-> ->]|[-> ->]]; (split; [done|]); [by rewrite Hframe|].
  simpl. rewrite state_modify_eq, Hframe; [done..|]. by eapply extends_valid.
Qed.

Lemma advance_on_cells rec ts state_id b b' :
  rec_ok rec → LexTable.valid state_id (lex_table b) → NoDup ts.*1 →
  add_advance_actions_on rec ts state_id b = Some b' →
  (∀ cs successor, (cs, successor) ∈ ts →
     ∃ new_state_id,
       lex_state_ids b' !! successor = Some new_state_id
       ∧ actions (LexTable.state state_id (lex_table b')) !! cs
         = let action :=
             LexAction.Advance new_state_id (precedence_range_for_item_set successor) in
           if resolve lex_grammar action
                (default_action (LexTable.state state_id (lex_table b)))
           then Some action
           else actions (LexTable.state state_id (lex_table b)) !! cs)
  ∧ (∀ cs, cs ∉ ts.*1 →
       actions (LexTable.state state_id (lex_table b')) !! cs
       = actions (LexTable.state state_id (lex_table b)) !! cs).
Proof.
  intros Hrec. revert b. induction ts as [|t ts IH]; intros b Hv Hnd.
  { intros [= <-]. split; [|done]. by intros ?? ?%elem_of_nil. }
  rewrite (add_advance_actions_on_cons lex_grammar).
  destruct (advance_step rec state_id (Some b) t) as [b1|] eqn:Hstep; [|done].
  simpl. intros Hrest. rewrite fmap_cons in Hnd. apply NoDup_cons in Hnd as [Hnin Hnd].
  pose proof (advance_step_ok _ _ _ _ _ _ Hrec Hv Hstep) as [Hext1 _ Hdef1 _ _].
  assert (LexTable.valid state_id (lex_table b1)) as Hv1 by by eapply extends_valid.
  pose proof (advance_on_ok _ _ _ _ _ _ Hrec Hv1 Hrest) as [Hext _ _ _ _].
  destruct (IH b1 Hv1 Hnd Hrest) as [Hin Hout]. rewrite Hdef1 in Hin.
  destruct (advance_step_cell _ _ _ _ _ Hrec Hv Hstep) as (new_state_id & Hid & Hcell).
  simpl in Hcell.
  assert (∀ cs, cs ≠ t.1 →
            actions (LexTable.state state_id (lex_table b1)) !! cs
            = actions (LexTable.state state_id (lex_table b)) !! cs) as Hother.
  { intros cs Hne. rewrite Hcell. destruct (resolve _ _ _); [|done].
    simpl. by rewrite lookup_insert_ne. }
  split.
  - intros cs successor [Heq|Hts]%elem_of_cons.
    + subst t. simpl in *. exists new_state_id. split.
      * eapply lookup_weaken; [exact Hid|]. by destruct Hext.
      * rewrite (Hout cs Hnin), Hcell. simpl.
        destruct (resolve _ _ _); [|done]. simpl. apply lookup_insert_eq.
    + destruct (Hin _ _ Hts) as (id' & Hid' & Hcs). exists id'. split; [done|].
      rewrite Hcs. simpl.
      destruct (resolve lex_grammar (LexAction.Advance id' _) _); [done|]. apply Hother.
      intros ->. apply Hnin. apply list_elem_of_fmap. by exists (t.1, successor).
  - intros cs Hcs. apply not_elem_of_cons in Hcs as [Hne Hcs].
    rewrite (Hout cs Hcs). by apply Hother.
Qed.

End advance_cells.

(** ** Setting the token-start flag commutes with the other passes *)

Section token_start_commutes.
Context `{!Collaborators}.
Variable lex_grammar : LexicalGrammar.

Implicit Types (b : Builder) (tbl : LexTable.t) (id state_id : LexStateId).
Implicit Types (item_set : LexItemSet) (ts : list (CharacterSet * LexItemSet)).

Local Abbreviation add_lex_state := (add_lex_state lex_grammar).
Local Abbreviation add_advance_actions_on := (add_advance_actions_on lex_grammar).
Local Abbreviation advance_step := (advance_step lex_grammar).
Local Abbreviation populate_lex_state_with := (populate_lex_state_with lex_grammar).
Local Abbreviation add_accept_token_actions_on := (add_accept_token_actions_on lex_grammar).
Local Abbreviation accept_step := (accept_step lex_grammar).

Lemma modify_flag_swap f state_id id tbl :
  (∀ s, f (set_is_token_start true s) = set_is_token_start true (f s)) →
  LexTable.modify f state_id (flag id tbl) = flag id (LexTable.modify f state_id tbl).
Proof.
  intros Hf. unfold flag. destruct (decide (state_id = id)) as [->|Hne].
  - by apply modify_modify_same.
  - by apply modify_modify_comm.
Qed.

Lemma default_action_flag state_id id tbl :
  default_action (LexTable.state state_id (flag id tbl))
  = default_action (LexTable.state state_id tbl).
Proof. by apply (state_modify_proj default_action). Qed.

Lemma accept_on_flag_comm items state_id id tbl :
  add_accept_token_actions_on items state_id (flag id tbl)
  = flag id (add_accept_token_actions_on items state_id tbl).
Proof.
  unfold add_accept_token_actions_on. revert tbl.
  induction items as [|item items IH]; intros tbl; simpl; [done|].
  rewrite <-IH. f_equal. unfold accept_step.
  destruct (is_done _); [|done]. rewrite default_action_flag.
  destruct (resolve _ _ _); [|done]. by apply modify_flag_swap.
Qed.

Lemma add_token_start_flag_comm item_set state_id id tbl :
  add_token_start item_set state_id (flag id tbl)
  = flag id (add_token_start item_set state_id tbl).
Proof.
  rewrite !add_token_start_alt. destruct (existsb _ _); [|done].
  by apply modify_flag_swap.
Qed.

Lemma advance_step_extends rec state_id b t b1 :
  rec_ok rec → advance_step rec state_id (Some b) t = Some b1 → extends b b1.
Proof.
  intros Hrec (new_state_id & b0 & Hrec0 & Hb1)%advance_step_Some.
  destruct (Hrec _ _ _ _ Hrec0) as [Hext _ _ _].
  destruct Hb1 as [[_ ->]|[_ ->]]; [done|].
  eapply extends_trans; [done|]. apply extends_on_table. intros. apply length_modify.
Qed.

Lemma advance_step_flag_comm rec state_id id b t :
  flag_comm id rec → LexTable.valid id (lex_table b) →
  advance_step rec state_id (Some (on_table (flag id) b)) t
  = on_table (flag id) <$> advance_step rec state_id (Some b) t.
Proof.
  intros Hcomm Hv. unfold advance_step. simpl. rewrite (Hcomm _ _ Hv).
  destruct (rec t.2 b) as [[new_state_id b0]|]; simpl; [|done].
  rewrite default_action_flag. destruct (resolve _ _ _); simpl; [|done].
  unfold on_table. simpl. do 2 f_equal. by apply modify_flag_swap.
Qed.

Lemma advance_on_flag_comm rec ts state_id id b :
  flag_comm id rec → rec_ok rec → LexTable.valid id (lex_table b) →
  add_advance_actions_on rec ts state_id (on_table (flag id) b)
  = on_table (flag id) <$> add_advance_actions_on rec ts state_id b.
Proof.
  intros Hcomm Hrec. revert b. induction ts as [|t ts IH]; intros b Hv; [done|].
  rewrite !(add_advance_actions_on_cons lex_grammar), advance_step_flag_comm by done.
  destruct (advance_step rec state_id (Some b) t) as [b1|] eqn:Hstep; simpl; [|done].
  apply IH. eapply extends_valid; [|done]. by eapply advance_step_extends.
Qed.

Lemma populate_flag_comm rec item_set state_id id b :
  flag_comm id rec → rec_ok rec → LexTable.valid id (lex_table b) →
  populate_lex_state_with rec item_set state_id (on_table (flag id) b)
  = on_table (flag id) <$> populate_lex_state_with rec item_set state_id b.
Proof.
  intros Hcomm Hrec Hv. unfold populate_lex_state_with, add_advance_actions_with.
  replace (on_table (add_accept_token_actions lex_grammar item_set state_id)
             (on_table (flag id) b))
    with (on_table (flag id)
            (on_table (add_accept_token_actions lex_grammar item_set state_id) b)).
  2:{ unfold on_table. simpl. f_equal. symmetry. apply accept_on_flag_comm. }
  rewrite advance_on_flag_comm; [|done..|]; cycle 1.
  { simpl. unfold LexTable.valid, add_accept_token_actions.
    by rewrite length_accept_on. }
  destruct (add_advance_actions_on _ _ _ _) as [b1|]; simpl; [|done].
  unfold on_table. simpl. do 2 f_equal. apply add_token_start_flag_comm.
Qed.

Lemma add_lex_state_S fuel item_set b :
  add_lex_state (S fuel) item_set b
  = match lex_state_ids b !! item_set with
    | None =>
        let new_state := LexTable.add_state (lex_table b) in
        (λ b', (new_state.1, b'))
          <$> populate_lex_state_with (add_lex_state fuel) item_set new_state.1
                (mkBuilder (<[item_set := new_state.1]> (lex_state_ids b)) new_state.2)
    | Some state_id => Some (state_id, b)
    end.
Proof. simpl. by destruct (lex_state_ids b !! item_set). Qed.

Lemma add_lex_state_flag_comm fuel id : flag_comm id (add_lex_state fuel).
Proof.
  induction fuel as [|fuel IH]; intros item_set b Hv; [done|].
  rewrite !add_lex_state_S.
  change (lex_state_ids (on_table (flag id) b)) with (lex_state_ids b).
  change (lex_table (on_table (flag id) b)) with (flag id (lex_table b)).
  destruct (lex_state_ids b !! item_set) as [id0|]; [done|].
  unfold flag at 1. rewrite add_state_modify_comm by done. cbn [fst snd].
  set (new_id := (LexTable.add_state (lex_table b)).1).
  set (tbl := (LexTable.add_state (lex_table b)).2).
  change (mkBuilder (<[item_set := new_id]> (lex_state_ids b))
            (LexTable.modify (set_is_token_start true) id tbl))
    with (on_table (flag id) (mkBuilder (<[item_set := new_id]> (lex_state_ids b)) tbl)).
  rewrite populate_flag_comm;
    [|done|apply add_lex_state_ok|by apply valid_add_state].
  by destruct (populate_lex_state_with _ _ _ _).
Qed.

End token_start_commutes.

(** ** The loop of [build] over the parse states *)

Section build_facts.
Context `{!Collaborators}.
Variable lex_grammar : LexicalGrammar.

Implicit Types (b : Builder) (tbl : LexTable.t) (id state_id : LexStateId).
Implicit Types (item_set : LexItemSet) (U : gset LexItemSet).
Implicit Types (states prev : list ParseState).

Local Abbreviation add_lex_state := (add_lex_state lex_grammar).
Local Abbreviation build_lex_item_set := (build_lex_item_set lex_grammar).
Local Abbreviation build_step := (build_step lex_grammar).
Local Abbreviation build_states := (build_states lex_grammar).
Local Abbreviation build_from := (build_from lex_grammar).
Local Abbreviation populate_lex_state := (populate_lex_state lex_grammar).
Local Abbreviation assigned := (assigned lex_grammar).

Lemma foldl_build_step_None' fuel states :
  foldl (build_step fuel) None states = None.
Proof. by induction states. Qed.

Lemma build_step_Some fuel prev b p r :
  build_step fuel (Some (prev, b)) p = Some r →
  ∃ item_set id b1,
    build_lex_item_set (expected_inputs p) = Some item_set
    ∧ add_lex_state fuel item_set b = Some (id, b1)
    ∧ r = (prev ++ [mkParseState (expected_inputs p) id], b1).
Proof.
  unfold build_step. simpl.
  destruct (build_lex_item_set (expected_inputs p)) as [item_set|]; simpl; [|done].
  destruct (add_lex_state fuel item_set b) as [[id b1]|] eqn:Hadd; simpl; [|done].
  intros [= <-]. exists item_set, id, b1. by split_and!.
Qed.

Lemma assigned_extends b b' p : extends b b' → assigned b p → assigned b' p.
Proof.
  intros [Hids _ _ _] (item_set & Hset & Hid). exists item_set. split; [done|].
  by eapply lookup_weaken.
Qed.

Lemma build_loop_ok fuel states prev b prev' b' :
  foldl (build_step fuel) (Some (prev, b)) states = Some (prev', b') →
  extends b b'
  ∧ untouched (λ _, True) (lex_table b) (lex_table b')
  ∧ (∃ new, prev' = prev ++ new
            ∧ expected_inputs <$> new = expected_inputs <$> states
            ∧ Forall (assigned b') new)
  ∧ (∀ U, reach_closed U →
          Forall (λ p, ∀ item_set,
                    build_lex_item_set (expected_inputs p) = Some item_set →
                    item_set ∈ U) states →
          dom (lex_state_ids b) ⊆ U → dom (lex_state_ids b') ⊆ U).
Proof.
  revert prev b. induction states as [|p states IH]; intros prev b.
  { intros [= <- <-]. split_and!; auto using extends_refl, untouched_refl.
    exists []. by rewrite app_nil_r. }
  cbn [foldl].
  destruct (build_step fuel (Some (prev, b)) p) as [[prev1 b1]|] eqn:Hstep;
    [|by rewrite foldl_build_step_None'].
  apply build_step_Some in Hstep as (item_set & id & b1' & Hset & Hadd & [= -> ->]).
  intros Hrest. apply IH in Hrest as (He & Hf & (new & -> & Hexp & Hass) & Hd).
  apply (add_lex_state_ok lex_grammar) in Hadd as [He1 Hid1 Hf1 Hd1].
  split_and!.
  - by eapply extends_trans.
  - eapply untouched_trans; [|done..]. by destruct He1.
  - exists (mkParseState (expected_inputs p) id :: new). split_and!.
    + by rewrite <-app_assoc.
    + rewrite !fmap_cons. by f_equal.
    + constructor; [|done]. eapply assigned_extends; [done|]. by exists item_set.
  - intros U HU Hst Hdom. apply Forall_cons in Hst as [Hp Hst].
    apply Hd; [done..|]. apply Hd1; auto.
Qed.

Lemma build_loop_total U fuel states prev b :
  reach_closed U →
  Forall (λ p, ∃ item_set, build_lex_item_set (expected_inputs p) = Some item_set
                           ∧ item_set ∈ U) states →
  (unexplored U b < fuel)%nat →
  is_Some (foldl (build_step fuel) (Some (prev, b)) states).
Proof.
  intros HU Hst. revert prev b.
  induction Hst as [|p states (item_set & Hset & Hin) _ IH]; intros prev b Hb;
    [by eexists|].
  cbn [foldl]. unfold build_step at 2. simpl. rewrite Hset. simpl.
  destruct (add_lex_state_total lex_grammar U fuel item_set b HU Hin Hb)
    as [[id b1] Hadd].
  rewrite Hadd. simpl. apply IH.
  apply (add_lex_state_ok lex_grammar) in Hadd as [He _ _ _].
  apply (unexplored_mono U) in He. lia.
Qed.

Lemma build_loop_fuel_mono fuel fuel' states acc r :
  (fuel ≤ fuel')%nat →
  foldl (build_step fuel) acc states = Some r →
  foldl (build_step fuel') acc states = Some r.
Proof.
  intros Hle. revert acc. induction states as [|p states IH]; intros acc; [done|].
  cbn [foldl]. destruct (build_step fuel acc p) as [r1|] eqn:Hstep;
    [|by rewrite foldl_build_step_None'].
  assert (build_step fuel' acc p = Some r1) as ->; [|apply IH].
  destruct acc as [[prev b]|]; [|done]. revert Hstep. unfold build_step. simpl.
  destruct (build_lex_item_set (expected_inputs p)) as [item_set|]; simpl; [|done].
  destruct (add_lex_state fuel item_set b) as [r0|] eqn:Hadd; simpl; [|done].
  by rewrite (add_lex_state_fuel_mono lex_grammar fuel fuel' Hle _ _ _ Hadd).
Qed.

Lemma build_from_fuel_mono fuel fuel' parse_table b r :
  (fuel ≤ fuel')%nat →
  build_from fuel parse_table b = Some r → build_from fuel' parse_table b = Some r.
Proof.
  intros Hle. unfold build_from, build_states.
  destruct (foldl (build_step fuel) _ _) as [[states b1]|] eqn:Hloop; simpl; [|done].
  rewrite (build_loop_fuel_mono _ _ _ _ _ Hle Hloop). simpl.
  destruct (build_lex_item_set _) as [error_item_set|]; simpl; [|done].
  destruct (populate_lex_state fuel _ _ _) as [b2|] eqn:Hpop; simpl; [|done].
  by rewrite (populate_lex_state_fuel_mono lex_grammar _ _ _ _ _ _ Hle Hpop).
Qed.

Lemma Builder_init_wf : Builder_wf Builder_init.
Proof. split; [|done]. intros s id. simpl. by rewrite lookup_empty. Qed.

(** What a whole [build] leaves behind. *)
Lemma build_from_ok fuel parse_table b parse_table' b' :
  build_from fuel parse_table b = Some (parse_table', b') →
  ∃ b1 error_item_set,
    build_states fuel (ParseTable.states parse_table) b
    = Some (ParseTable.states parse_table', b1)
    ∧ build_lex_item_set (ParseTable.symbols parse_table) = Some error_item_set
    ∧ populate_lex_state fuel error_item_set LexTable.ERROR_STATE_ID b1 = Some b'
    ∧ ParseTable.symbols parse_table' = ParseTable.symbols parse_table
    ∧ extends b b1 ∧ extends b1 b'
    ∧ untouched (λ _, True) (lex_table b) (lex_table b1)
    ∧ untouched (λ id, id ≠ LexTable.ERROR_STATE_ID) (lex_table b1) (lex_table b')
    ∧ expected_inputs <$> ParseTable.states parse_table'
      = expected_inputs <$> ParseTable.states parse_table
    ∧ Forall (assigned b') (ParseTable.states parse_table').
Proof.
  unfold build_from.
  destruct (build_states fuel _ b) as [[states b1]|] eqn:Hloop; simpl; [|done].
  destruct (build_lex_item_set _) as [error_item_set|] eqn:Herr; simpl; [|done].
  destruct (populate_lex_state fuel _ _ _) as [b2|] eqn:Hpop; simpl; [|done].
  intros [= <- <-]. exists b1, error_item_set. simpl.
  apply build_loop_ok in Hloop as (He & Hf & (new & -> & Hexp & Hass) & _).
  pose proof Hpop as Hpop'.
  apply populate_ok in Hpop' as (He2 & Hf2 & _);
    [|apply add_lex_state_ok|by left].
  split_and!; try done.
  eapply Forall_impl; [done|]. intros p. by apply assigned_extends.
Qed.

End build_facts.

(** ** Properties of the builder *)

Section properties.
Context `{!Collaborators}.
Variable lex_grammar : LexicalGrammar.

Local Abbreviation separator_rules := (separator_rules lex_grammar).
Local Abbreviation build_lex_item_set := (build_lex_item_set lex_grammar).
Local Abbreviation add_lex_state := (add_lex_state lex_grammar).
Local Abbreviation populate_lex_state := (populate_lex_state lex_grammar).
Local Abbreviation add_advance_actions := (add_advance_actions lex_grammar).

(** C5: for every alternative of every expected symbol and every separator
    alternative (each separator of the grammar wrapped in a repeat, and the
    blank rule), the item set holds the item whose rule is the sequence of
    the separator alternative, marked start-of-token 1 and precedence -1,
    and the alternative; and it holds nothing else. *)
Theorem build_lex_item_set_items (symbols : gset Symbol) :
  symbols_defined lex_grammar symbols →
  ∃ result,
    build_lex_item_set symbols = Some result
    ∧ ∀ item,
        item ∈ entries result
        ↔ ∃ symbol alt separator_rule,
            symbol ∈ symbols
            ∧ alternative lex_grammar symbol alt
            ∧ separator_rule ∈ (Repeat_build <$> separators lex_grammar) ++ [Blank_build]
            ∧ item = mkLexItem symbol
                       (Seq_build
                          [Metadata_build separator_rule
                             [(START_TOKEN, 1); (PRECEDENCE, -1)];
                           alt]).
Proof.
  intros Hdef. destruct (build_lex_item_set_total _ _ Hdef) as [result Hres].
  exists result. split; [done|]. intros item.
  rewrite (elem_of_build_lex_item_set _ _ _ _ Hres). split.
  - intros (symbol & rules & rule & sep & Hin & Hrules & Hrule & Hsep & ->).
    exists symbol, rule, sep. split_and!; try done.
    by apply (symbol_rules_alternative _ _ _ _ Hrules).
  - intros (symbol & alt & sep & Hin & Halt & Hsep & ->).
    destruct (Hdef symbol Hin) as [rules Hrules].
    exists symbol, rules, alt, sep. split_and!; try done.
    by apply (symbol_rules_alternative _ _ _ _ Hrules).
Qed.

(** C7: the end-of-input marker contributes exactly one item for each
    separator alternative, that is for the blank rule and for each separator
    of the grammar wrapped in a repeat; the token rule of each of these items
    is the character set that holds exactly the sentinel 0.  In particular
    the item of the blank alternative is in the set whenever the marker is
    among the symbols.  The error marker contributes no item. *)
Theorem end_of_input_and_error_items (symbols : gset Symbol) :
  END_OF_INPUT ≠ ERROR →
  symbols_defined lex_grammar symbols →
  ∃ result,
    build_lex_item_set symbols = Some result
    ∧ (∀ item, item ∈ entries result → lhs item ≠ ERROR)
    ∧ (∀ item,
         item ∈ entries result ∧ lhs item = END_OF_INPUT
         ↔ END_OF_INPUT ∈ symbols
           ∧ ∃ separator_rule,
               separator_rule
                 ∈ (Repeat_build <$> separators lex_grammar) ++ [Blank_build]
               ∧ item = mkLexItem END_OF_INPUT
                          (Seq_build
                             [Metadata_build separator_rule
                                [(START_TOKEN, 1); (PRECEDENCE, -1)];
                              CharacterSetRule {[ 0%N ]}]))
    ∧ (END_OF_INPUT ∈ symbols →
       mkLexItem END_OF_INPUT
         (Seq_build
            [Metadata_build Blank_build [(START_TOKEN, 1); (PRECEDENCE, -1)];
             CharacterSetRule {[ 0%N ]}])
         ∈ entries result
       ∧ ∀ separator, separator ∈ separators lex_grammar →
           mkLexItem END_OF_INPUT
             (Seq_build
                [Metadata_build (Repeat_build separator)
                   [(START_TOKEN, 1); (PRECEDENCE, -1)];
                 CharacterSetRule {[ 0%N ]}])
             ∈ entries result).
Proof.
  intros Hne Hdef. destruct (build_lex_item_set_total _ _ Hdef) as [result Hres].
  exists result. split; [done|].
  assert (∀ separator_rule,
            END_OF_INPUT ∈ symbols →
            separator_rule ∈ (Repeat_build <$> separators lex_grammar) ++ [Blank_build] →
            mkLexItem END_OF_INPUT
              (Seq_build
                 [Metadata_build separator_rule [(START_TOKEN, 1); (PRECEDENCE, -1)];
                  CharacterSetRule {[ 0%N ]}])
              ∈ entries result) as Hitem.
  { intros sep Hin Hsep. apply (elem_of_build_lex_item_set _ _ _ _ Hres).
    destruct (Hdef _ Hin) as [rules Hrules].
    exists END_OF_INPUT, rules, (CharacterSetRule {[ 0%N ]}), sep.
    split_and!; try done.
    apply (symbol_rules_alternative _ _ _ _ Hrules). by constructor. }
  split_and!.
  - intros item (symbol & rules & rule & sep & _ & Hrules & Hrule & _ & ->)
      %(elem_of_build_lex_item_set _ _ _ _ Hres).
    simpl. intros ->.
    apply (symbol_rules_alternative _ _ _ _ Hrules) in Hrule. by inversion Hrule.
  - intros item. split.
    + intros [(symbol & rules & rule & sep & Hin & Hrules & Hrule & Hsep & ->)
                %(elem_of_build_lex_item_set _ _ _ _ Hres) Hlhs].
      simpl in Hlhs. subst symbol. split; [done|]. exists sep. split; [done|].
      apply (symbol_rules_alternative _ _ _ _ Hrules) in Hrule.
      inversion Hrule; by subst.
    + intros [Hin (sep & Hsep & ->)]. split; [|done]. by apply Hitem.
  - intros Hin. split.
    + apply Hitem; [done|]. apply elem_of_app. right. apply list_elem_of_here.
    + intros separator Hsep. apply Hitem; [done|]. apply elem_of_app. left.
      apply list_elem_of_fmap. by exists separator.
Qed.

(** C10: a symbol that is neither the error marker, nor the end-of-input
    marker, nor a token contributes no item; every item of the set belongs
    to a symbol of the input that is a token or the end-of-input marker. *)
Theorem nonterminals_contribute_nothing (symbols : gset Symbol) :
  symbols_defined lex_grammar symbols →
  ∃ result,
    build_lex_item_set symbols = Some result
    ∧ (∀ item, item ∈ entries result →
         lhs item ∈ symbols ∧ lhs item ≠ ERROR
         ∧ (lhs item = END_OF_INPUT ∨ is_token (lhs item) = true))
    ∧ (∀ symbol, symbol ≠ ERROR → symbol ≠ END_OF_INPUT → is_token symbol = false →
         ∀ item, item ∈ entries result → lhs item ≠ symbol).
Proof.
  intros Hdef. destruct (build_lex_item_set_total _ _ Hdef) as [result Hres].
  exists result. split; [done|].
  assert (∀ item, item ∈ entries result →
            lhs item ∈ symbols ∧ lhs item ≠ ERROR
            ∧ (lhs item = END_OF_INPUT ∨ is_token (lhs item) = true)) as Hitems.
  { intros item (symbol & rules & rule & sep & Hin & Hrules & Hrule & _ & ->)
      %(elem_of_build_lex_item_set _ _ _ _ Hres).
    simpl. split; [done|].
    apply (symbol_rules_alternative _ _ _ _ Hrules) in Hrule.
    destruct Hrule; auto. }
  split; [done|]. intros symbol Herr Heoi Htok item Hitem <-.
  destruct (Hitems item Hitem) as (_ & _ & [?|?]); congruence.
Qed.

(** C3: [add_lex_state] interns an item set before it populates the state,
    so the exploration returns whenever the item sets that can be reached
    lie in a finite set [U] closed under transitions, even if an item set is
    its own successor: any fuel above the size of [U] gives a table, and the
    table has at most as many states as [U] has item sets. *)
Theorem build_lex_table_terminates (U : gset LexItemSet) (fuel : nat)
    (table : ParseTable.t) :
  reach_closed U →
  Forall (λ p, ∃ item_set,
            build_lex_item_set (expected_inputs p) = Some item_set ∧ item_set ∈ U)
         (ParseTable.states table) →
  (∃ error_item_set,
     build_lex_item_set (ParseTable.symbols table) = Some error_item_set
     ∧ error_item_set ∈ U) →
  (size U < fuel)%nat →
  (∀ item_set b, lex_state_ids b !! item_set = None →
     ∃ b1, lex_state_ids b1 !! item_set = Some (LexTable.add_state (lex_table b)).1
           ∧ add_lex_state (S fuel) item_set b
             = (λ b', ((LexTable.add_state (lex_table b)).1, b'))
                 <$> populate_lex_state fuel item_set
                       (LexTable.add_state (lex_table b)).1 b1)
  ∧ ∃ lex_table table',
      build_lex_table fuel table lex_grammar = Some (lex_table, table')
      ∧ (length (LexTable.states lex_table) ≤ size U)%nat.
Proof.
  intros HU Hstates (error_item_set & Herr & Hin) Hfuel. split.
  { intros item_set b Hnone.
    exists (mkBuilder (<[item_set := (LexTable.add_state (lex_table b)).1]> (lex_state_ids b))
                      (LexTable.add_state (lex_table b)).2).
    split; [apply lookup_insert_eq|]. by rewrite add_lex_state_S, Hnone. }
  assert (unexplored U Builder_init < fuel)%nat as Hinit.
  { unfold unexplored.
    assert (U ∖ dom (lex_state_ids Builder_init) ⊆ U) as Hsub%subseteq_size by set_solver.
    lia. }
  destruct (build_loop_total lex_grammar U fuel (ParseTable.states table) []
              Builder_init HU Hstates Hinit) as [[states b1] Hloop].
  pose proof Hloop as (He1 & _ & _ & Hd1)%build_loop_ok.
  assert (dom (lex_state_ids b1) ⊆ U) as Hdom1.
  { apply Hd1; [done| |simpl; set_solver].
    eapply Forall_impl; [exact Hstates|]. simpl.
    intros p (s & Hs & HsU) s' Hs'. congruence. }
  destruct (populate_lex_state_total lex_grammar U fuel error_item_set
              LexTable.ERROR_STATE_ID b1 HU Hin) as [b2 Hpop].
  { pose proof (unexplored_mono U _ _ He1). lia. }
  pose proof Hpop as (He2 & _ & Hd2)%populate_ok; [|apply add_lex_state_ok|by left].
  exists (lex_table b2), (ParseTable.mk states (ParseTable.symbols table)). split.
  - unfold build_lex_table, build, build_from, build_states.
    rewrite Hloop. simpl. rewrite Herr. simpl. by rewrite Hpop.
  - pose proof (extends_wf _ _ (extends_trans _ _ _ He1 He2) Builder_init_wf)
      as [_ Hcount].
    rewrite Hcount, <-size_dom. apply subseteq_size. by apply Hd2.
Qed.

(** The fuel only bounds the depth of the calls: two runs of the model that
    return, whatever fuel each was given, return the same lex table and the
    same parse table. *)
Lemma build_lex_table_fuel_independent (fuel1 fuel2 : nat) (table : ParseTable.t)
    (r1 r2 : LexTable.t * ParseTable.t) :
  build_lex_table fuel1 table lex_grammar = Some r1 →
  build_lex_table fuel2 table lex_grammar = Some r2 →
  r1 = r2.
Proof.
  unfold build_lex_table, build.
  destruct (build_from lex_grammar fuel1 table Builder_init) as [[t1 b1]|] eqn:H1;
    simpl; [|done].
  destruct (build_from lex_grammar fuel2 table Builder_init) as [[t2 b2]|] eqn:H2;
    simpl; [|done].
  intros [= <-] [= <-].
  apply (build_from_fuel_mono _ _ (fuel1 `max` fuel2)%nat) in H1; [|lia].
  apply (build_from_fuel_mono _ _ (fuel1 `max` fuel2)%nat) in H2; [|lia].
  congruence.
Qed.

(** C4: a later call of [add_lex_state] on an item set equal to one already
    interned returns the same identifier and leaves the builder as it is, so
    no state is allocated; and parse states with equal expected-input sets
    get the same [lex_state_id]. *)
Theorem equal_item_sets_share_state (fuel fuel' build_fuel : nat)
    (item_set item_set' : LexItemSet) (b b1 b2 : Builder) (id : LexStateId)
    (table table' : ParseTable.t) (final : Builder) :
  add_lex_state fuel item_set b = Some (id, b1) →
  extends b1 b2 →
  item_set' = item_set →
  build lex_grammar build_fuel table = Some (table', final) →
  add_lex_state (S fuel') item_set' b2 = Some (id, b2)
  ∧ ∀ p q, p ∈ ParseTable.states table' → q ∈ ParseTable.states table' →
           expected_inputs p = expected_inputs q →
           lex_state_id p = lex_state_id q.
Proof.
  intros Hadd Hext -> Hbuild. split.
  - apply add_lex_state_ok in Hadd as [_ Hid _ _].
    rewrite add_lex_state_S.
    by rewrite (lookup_weaken _ _ _ _ Hid (ext_ids _ _ Hext)).
  - apply build_from_ok in Hbuild
      as (_ & _ & _ & _ & _ & _ & _ & _ & _ & _ & _ & Hass).
    intros p q Hp Hq Heq.
    destruct (proj1 (Forall_forall _ _) Hass p Hp) as (sp & Hsp & Hidp).
    destruct (proj1 (Forall_forall _ _) Hass q Hq) as (sq & Hsq & Hidq).
    rewrite Heq in Hsp. congruence.
Qed.

(** C9: the error state is populated at [ERROR_STATE_ID] and that
    identifier is never interned: [add_lex_state] does not return it, no
    item set is mapped to it, and every parse state, also one whose item set
    equals the item set of the error state, gets the index of a state of the
    table, under which its item set is interned. *)
Theorem error_state_id_not_interned (fuel fuel' : nat) (table table' : ParseTable.t)
    (final b b' : Builder) (item_set : LexItemSet) (id : LexStateId) :
  build lex_grammar fuel table = Some (table', final) →
  Builder_wf b →
  add_lex_state fuel' item_set b = Some (id, b') →
  id ≠ LexTable.ERROR_STATE_ID
  ∧ (∃ b1 error_item_set,
       build_states lex_grammar fuel (ParseTable.states table) Builder_init
       = Some (ParseTable.states table', b1)
       ∧ build_lex_item_set (ParseTable.symbols table) = Some error_item_set
       ∧ LexTable.state LexTable.ERROR_STATE_ID (lex_table b1) = LexState_init
       ∧ populate_lex_state fuel error_item_set LexTable.ERROR_STATE_ID b1
         = Some final
       ∧ untouched (λ id, id ≠ LexTable.ERROR_STATE_ID) (lex_table b1) (lex_table final))
  ∧ (∀ s i, lex_state_ids final !! s = Some i → i ≠ LexTable.ERROR_STATE_ID)
  ∧ (∀ p, p ∈ ParseTable.states table' →
       lex_state_id p ≠ LexTable.ERROR_STATE_ID
       ∧ 0 ≤ lex_state_id p < Z.of_nat (length (LexTable.states (lex_table final))))
  ∧ (∀ p error_item_set,
       p ∈ ParseTable.states table' →
       build_lex_item_set (expected_inputs p) = Some error_item_set →
       build_lex_item_set (ParseTable.symbols table) = Some error_item_set →
       lex_state_ids final !! error_item_set = Some (lex_state_id p)
       ∧ lex_state_id p ≠ LexTable.ERROR_STATE_ID).
Proof.
  intros Hbuild Hwf Hadd.
  assert (∀ b0, Builder_wf b0 → ∀ s i, lex_state_ids b0 !! s = Some i →
            i ≠ LexTable.ERROR_STATE_ID
            ∧ 0 ≤ i < Z.of_nat (length (LexTable.states (lex_table b0)))) as Hids.
  { intros b0 [Hi _] s i Hs. specialize (Hi s i Hs).
    unfold LexTable.ERROR_STATE_ID. lia. }
  apply build_from_ok in Hbuild
    as (b1 & e & Hloop & He & Hpop & _ & Hext1 & Hext2 & Hf1 & Hf2 & _ & Hass).
  pose proof (extends_wf _ _ (extends_trans _ _ _ Hext1 Hext2) Builder_init_wf) as Hwff.
  assert (∀ p, p ∈ ParseTable.states table' →
            ∃ s, build_lex_item_set (expected_inputs p) = Some s
                 ∧ lex_state_ids final !! s = Some (lex_state_id p)) as Hp.
  { intros p Hin. exact (proj1 (Forall_forall _ _) Hass p Hin). }
  split_and!.
  - apply add_lex_state_ok in Hadd as [Hext Hid _ _].
    apply (Hids b' (extends_wf _ _ Hext Hwf) _ _ Hid).
  - exists b1, e. split_and!; try done.
    rewrite Hf1; [done|by left|done].
  - intros s i Hs. by apply (Hids final Hwff s i).
  - intros p (s & _ & Hs)%Hp. by apply (Hids final Hwff s).
  - intros p e' (s & Hs & Hid)%Hp He1 He2. rewrite He1 in Hs. injection Hs as <-.
    split; [done|]. by apply (Hids final Hwff e').
Qed.

End properties.

Section pass_properties.
Context `{!Collaborators}.
Variable lex_grammar : LexicalGrammar.

Implicit Types (b : Builder) (tbl : LexTable.t) (id state_id : LexStateId).
Implicit Types (item_set : LexItemSet) (ts : list (CharacterSet * LexItemSet)).

Local Abbreviation add_lex_state := (add_lex_state lex_grammar).
Local Abbreviation populate_lex_state := (populate_lex_state lex_grammar).
Local Abbreviation add_advance_actions := (add_advance_actions lex_grammar).
Local Abbreviation add_advance_actions_on := (add_advance_actions_on lex_grammar).
Local Abbreviation add_accept_token_actions := (add_accept_token_actions lex_grammar).
Local Abbreviation add_accept_token_actions_on := (add_accept_token_actions_on lex_grammar).
Local Abbreviation run_passes := (run_passes lex_grammar).

Lemma on_table_add_token_start item_set state_id b :
  on_table (add_token_start item_set state_id) b
  = if existsb LexItem_is_token_start (elements (entries item_set))
    then on_table (flag state_id) b
    else b.
Proof.
  unfold on_table. rewrite add_token_start_alt.
  destruct (existsb _ _); [done|]. by destruct b.
Qed.

Lemma valid_accept item_set state_id id tbl :
  LexTable.valid id tbl →
  LexTable.valid id (add_accept_token_actions item_set state_id tbl).
Proof.
  unfold LexTable.valid, add_accept_token_actions. by rewrite length_accept_on.
Qed.

(** C1 (amended): for every derived transition the advance pass interns
    the successor, proposes an Advance action that carries the successor's
    precedence range, and folds it against the default action of the state
    being populated: the action is stored for its character range exactly
    when the conflict manager reports that it wins against that default
    action; otherwise the range keeps what it had. *)
Theorem advance_folded_against_default (fuel : nat) (item_set : LexItemSet)
    (state_id : LexStateId) (b b' : Builder) :
  LexTable.valid state_id (lex_table b) →
  NoDup (transitions item_set).*1 →
  add_advance_actions fuel item_set state_id b = Some b' →
  default_action (LexTable.state state_id (lex_table b'))
  = default_action (LexTable.state state_id (lex_table b))
  ∧ (∀ cs successor, (cs, successor) ∈ transitions item_set →
       ∃ new_state_id,
         lex_state_ids b' !! successor = Some new_state_id
         ∧ actions (LexTable.state state_id (lex_table b')) !! cs
           = let action :=
               LexAction.Advance new_state_id
                 (precedence_range_for_item_set successor) in
             if resolve lex_grammar action
                  (default_action (LexTable.state state_id (lex_table b)))
             then Some action
             else actions (LexTable.state state_id (lex_table b)) !! cs)
  ∧ (∀ cs, cs ∉ (transitions item_set).*1 →
       actions (LexTable.state state_id (lex_table b')) !! cs
       = actions (LexTable.state state_id (lex_table b)) !! cs).
Proof.
  intros Hv Hnd Hadv. split.
  - by apply advance_on_ok in Hadv as [_ _ Hdef _ _]; [|apply add_lex_state_ok|].
  - by apply (advance_on_cells lex_grammar (add_lex_state fuel));
      [apply add_lex_state_ok|..].
Qed.

(** C2 (amended): the token-start pass is independent of the other two
    passes, and the accept pass has to come before the advance pass: in
    each of the three orders that run the accept pass before the advance
    pass, the passes leave the same builder as [populate_lex_state]. *)
Theorem passes_order (fuel : nat) (item_set : LexItemSet) (state_id : LexStateId)
    (b : Builder) (ps : list Pass) :
  LexTable.valid state_id (lex_table b) →
  ps ∈ [[AcceptPass; AdvancePass; TokenStartPass];
        [AcceptPass; TokenStartPass; AdvancePass];
        [TokenStartPass; AcceptPass; AdvancePass]] →
  run_passes fuel item_set state_id ps b
  = populate_lex_state fuel item_set state_id b.
Proof.
  intros Hv Hps.
  assert (Hlast : ∀ b0, LexTable.valid state_id (lex_table b0) →
    add_advance_actions fuel item_set state_id
      (on_table (add_token_start item_set state_id) b0)
    = on_table (add_token_start item_set state_id)
        <$> add_advance_actions fuel item_set state_id b0).
  { intros b0 Hv0. rewrite on_table_add_token_start.
    destruct (existsb _ _) eqn:Hex.
    - unfold add_advance_actions, add_advance_actions_with.
      rewrite advance_on_flag_comm;
        [|apply add_lex_state_flag_comm|apply add_lex_state_ok|done].
      destruct (add_advance_actions_on _ _ _ _) as [b1|]; simpl; [|done].
      by rewrite on_table_add_token_start, Hex.
    - destruct (add_advance_actions _ _ _ _) as [b1|]; simpl; [|done].
      by rewrite on_table_add_token_start, Hex. }
  assert (Hpop : populate_lex_state fuel item_set state_id b
    = on_table (add_token_start item_set state_id)
        <$> add_advance_actions fuel item_set state_id
              (on_table (add_accept_token_actions item_set state_id) b)).
  { unfold populate_lex_state, populate_lex_state_with,
      add_advance_actions.
    by destruct (add_advance_actions_with _ _ _ _ _). }
  rewrite Hpop. unfold run_passes.
  repeat (apply elem_of_cons in Hps as [->|Hps]); [| | |by apply elem_of_nil in Hps];
    simpl.
  - by destruct (add_advance_actions _ _ _ _).
  - apply Hlast. simpl. by apply valid_accept.
  - rewrite <-Hlast by (simpl; by apply valid_accept). f_equal.
    unfold on_table. simpl. f_equal.
    rewrite !add_token_start_alt. destruct (existsb _ _); [|done].
    unfold add_accept_token_actions. apply accept_on_flag_comm.
Qed.

(** C6: every write to a cell of the table is guarded by a query to the
    conflict manager that reports that the candidate wins.  At each turn of
    the accept pass the default action changes only to the candidate, and
    only if [resolve] holds of the candidate and the default action stored
    then.  At each turn of the advance pass the states that existed are
    left as they were, except that the state being populated may get the
    candidate for the range of the transition, and only if [resolve] holds
    of the candidate and the default action stored in that state; that
    range holds no action before the write when the keys of the transitions
    are distinct and the state had no action for them at the start, which is
    so for the fresh state that [add_lex_state] populates and for the error
    state that [build] populates.  So no stored action is replaced by one
    that the conflict manager does not prefer. *)
Theorem mutations_are_guarded (fuel : nat) (item_set : LexItemSet)
    (state_id : LexStateId) (b : Builder) :
  LexTable.valid state_id (lex_table b) →
  (∀ items item,
     (items ++ [item]) `prefix_of` elements (entries item_set) →
     let before := add_accept_token_actions_on items state_id (lex_table b) in
     let after := add_accept_token_actions_on (items ++ [item]) state_id (lex_table b) in
     let candidate :=
       LexAction.Accept (lhs item) (precedence (get_completion_status (rule item))) in
     after = before
     ∨ (resolve lex_grammar candidate
          (default_action (LexTable.state state_id before)) = true
        ∧ after = LexTable.modify (set_default_action candidate) state_id before))
  ∧ (∀ ts t before after,
       (ts ++ [t]) `prefix_of` transitions item_set →
       add_advance_actions_on (add_lex_state fuel) ts state_id b = Some before →
       add_advance_actions_on (add_lex_state fuel) (ts ++ [t]) state_id b = Some after →
       untouched (λ id, id ≠ state_id) (lex_table before) (lex_table after)
       ∧ (LexTable.state state_id (lex_table after)
          = LexTable.state state_id (lex_table before)
          ∨ ∃ new_state_id,
              let candidate :=
                LexAction.Advance new_state_id (precedence_range_for_item_set t.2) in
              lex_state_ids after !! t.2 = Some new_state_id
              ∧ resolve lex_grammar candidate
                  (default_action (LexTable.state state_id (lex_table before))) = true
              ∧ LexTable.state state_id (lex_table after)
                = set_action t.1 candidate (LexTable.state state_id (lex_table before)))
       ∧ (NoDup (transitions item_set).*1 →
          actions (LexTable.state state_id (lex_table b)) = ∅ →
          actions (LexTable.state state_id (lex_table before)) !! t.1 = None))
  ∧ (∀ tbl item_set',
       actions (LexTable.state (LexTable.add_state tbl).1
                  (add_accept_token_actions item_set' (LexTable.add_state tbl).1
                     (LexTable.add_state tbl).2)) = ∅)
  ∧ (∀ build_fuel states states' b1 item_set',
       build_states lex_grammar build_fuel states Builder_init = Some (states', b1) →
       actions (LexTable.state LexTable.ERROR_STATE_ID
                  (add_accept_token_actions item_set' LexTable.ERROR_STATE_ID
                     (lex_table b1))) = ∅).
Proof.
  intros Hv. split_and!.
  - intros items item _. simpl.
    unfold add_accept_token_actions_on. rewrite foldl_app. simpl.
    destruct (accept_step_cases lex_grammar state_id
                (foldl (accept_step lex_grammar state_id) (lex_table b) items) item)
      as [->|(_ & Hres & ->)]; auto.
  - intros ts t before after Hpre Hbefore. rewrite add_advance_actions_on_snoc, Hbefore.
    intros Hstep.
    pose proof (add_lex_state_ok lex_grammar fuel) as Hrec.
    pose proof (advance_on_ok _ _ _ _ _ _ Hrec Hv Hbefore) as [Hext _ _ _ _].
    assert (LexTable.valid state_id (lex_table before)) as Hvb
      by by eapply extends_valid.
    split_and!.
    + by apply (advance_step_ok _ _ _ _ _ _ Hrec Hvb) in Hstep as [_ Hf _ _ _].
    + destruct (advance_step_cell _ _ _ _ _ _ Hrec Hvb Hstep) as (nid & Hid & Hcell).
      simpl in Hcell. destruct (resolve _ _ _) eqn:Hres; [|by left].
      right. exists nid. by split_and!.
    + intros Hnd Hempty. destruct Hpre as [rest Hpre].
      rewrite Hpre, <-app_assoc, fmap_app in Hnd.
      apply NoDup_app in Hnd as (Hnd & Hdisj & _).
      destruct (advance_on_cells _ _ _ _ _ _ Hrec Hv Hnd Hbefore) as [_ Hout].
      rewrite Hout, Hempty; [done|]. intros Hin. apply (Hdisj _ Hin).
      simpl. apply list_elem_of_here.
  - intros tbl item_set'. unfold add_accept_token_actions.
    rewrite (accept_on_proj lex_grammar actions) by done.
    by rewrite state_add_state_new.
  - intros build_fuel states states' b1 item_set' Hloop.
    apply build_loop_ok in Hloop as (_ & Hf & _).
    unfold add_accept_token_actions.
    rewrite (accept_on_proj lex_grammar actions) by done.
    rewrite Hf; [done|by left|done].
Qed.

End pass_properties.

(** ** The builder on the concrete grammars *)

Ltac by_computation :=
  match goal with |- ?P => apply (bool_decide_unpack P); vm_compute; exact I end.

(** On [a]: the set reached from the start of [a_star] is its own
    successor. *)
Example a_star_loop_is_its_own_successor :
  transitions (Collaborators := model) a_star_loop = [({[ 97%N ]}, a_star_loop)].
Proof. by_computation. Qed.

Lemma build_lex_item_set_items_witness :
  ∃ result,
    build_lex_item_set (H := model) a_star_grammar {[ token0 ]} = Some result
    ∧ ∀ item,
        item ∈ entries result
        ↔ ∃ symbol alt separator_rule,
            symbol ∈ ({[ token0 ]} : gset Symbol)
            ∧ alternative (H := model) a_star_grammar symbol alt
            ∧ separator_rule ∈ (Repeat <$> separators a_star_grammar) ++ [Blank]
            ∧ item = mkLexItem symbol
                       (Model.Seq_build
                          [Metadata separator_rule
                             [(START_TOKEN, 1); (PRECEDENCE, -1)];
                           alt]).
Proof.
  apply (build_lex_item_set_items (H := model) a_star_grammar {[ token0 ]}).
  by_computation.
Defined.

Lemma end_of_input_and_error_items_witness :
  ∃ result,
    build_lex_item_set (H := model) spaced_grammar
      {[ token0; Model.END_OF_INPUT; Model.ERROR ]} = Some result
    ∧ (∀ item, item ∈ entries result → lhs item ≠ Model.ERROR)
    ∧ (∀ item,
         item ∈ entries result ∧ lhs item = Model.END_OF_INPUT
         ↔ Model.END_OF_INPUT
             ∈ ({[ token0; Model.END_OF_INPUT; Model.ERROR ]} : gset Symbol)
           ∧ ∃ separator_rule,
               separator_rule ∈ (Repeat <$> separators spaced_grammar) ++ [Blank]
               ∧ item = mkLexItem Model.END_OF_INPUT
                          (Model.Seq_build
                             [Metadata separator_rule
                                [(START_TOKEN, 1); (PRECEDENCE, -1)];
                              CharacterSetRule {[ 0%N ]}]))
    ∧ (Model.END_OF_INPUT
         ∈ ({[ token0; Model.END_OF_INPUT; Model.ERROR ]} : gset Symbol) →
       mkLexItem Model.END_OF_INPUT
         (Model.Seq_build
            [Metadata Blank [(START_TOKEN, 1); (PRECEDENCE, -1)];
             CharacterSetRule {[ 0%N ]}])
         ∈ entries result
       ∧ ∀ separator, separator ∈ separators spaced_grammar →
           mkLexItem Model.END_OF_INPUT
             (Model.Seq_build
                [Metadata (Repeat separator) [(START_TOKEN, 1); (PRECEDENCE, -1)];
                 CharacterSetRule {[ 0%N ]}])
             ∈ entries result).
Proof.
  apply (end_of_input_and_error_items (H := model) spaced_grammar
           {[ token0; Model.END_OF_INPUT; Model.ERROR ]}).
  - discriminate.
  - by_computation.
Defined.

(** With the space as separator the end-of-input marker has two items, one
    for the repeated space and one for the blank rule, and the error marker
    has none. *)
Example spaced_end_of_input_items :
  build_lex_item_set (H := model) spaced_grammar {[ Model.END_OF_INPUT; Model.ERROR ]}
  = Some (mkLexItemSet
            {[ mkLexItem Model.END_OF_INPUT
                 (Seq (Metadata (Repeat (CharacterSetRule {[ 32%N ]}))
                         [(START_TOKEN, 1); (PRECEDENCE, -1)])
                      (CharacterSetRule {[ 0%N ]}));
               mkLexItem Model.END_OF_INPUT
                 (Seq separator_prefix (CharacterSetRule {[ 0%N ]})) ]}).
Proof. by_computation. Qed.

Lemma nonterminals_contribute_nothing_witness :
  ∃ result,
    build_lex_item_set (H := model) a_star_grammar
      {[ token0; mkSymbol 0 false; Model.END_OF_INPUT ]} = Some result
    ∧ (∀ item, item ∈ entries result →
         lhs item ∈ ({[ token0; mkSymbol 0 false; Model.END_OF_INPUT ]} : gset Symbol)
         ∧ lhs item ≠ Model.ERROR
         ∧ (lhs item = Model.END_OF_INPUT ∨ is_token (lhs item) = true))
    ∧ (∀ symbol, symbol ≠ Model.ERROR → symbol ≠ Model.END_OF_INPUT →
         is_token symbol = false →
         ∀ item, item ∈ entries result → lhs item ≠ symbol).
Proof.
  apply (nonterminals_contribute_nothing (H := model) a_star_grammar
           {[ token0; mkSymbol 0 false; Model.END_OF_INPUT ]}).
  by_computation.
Defined.

Lemma a_star_universe_closed : reach_closed (H := model) a_star_universe.
Proof. by_computation. Defined.

Lemma build_lex_table_terminates_witness :
  (∀ item_set b, lex_state_ids b !! item_set = None →
     ∃ b1, lex_state_ids b1 !! item_set = Some (LexTable.add_state (lex_table b)).1
           ∧ add_lex_state (H := model) a_star_grammar 6 item_set b
             = (λ b', ((LexTable.add_state (lex_table b)).1, b'))
                 <$> populate_lex_state (H := model) a_star_grammar 5 item_set
                       (LexTable.add_state (lex_table b)).1 b1)
  ∧ ∃ lex_table table',
      build_lex_table (H := model) 5 a_star_table a_star_grammar
      = Some (lex_table, table')
      ∧ (length (LexTable.states lex_table) ≤ size a_star_universe)%nat.
Proof.
  apply (build_lex_table_terminates (H := model) a_star_grammar a_star_universe 5
           a_star_table).
  - exact a_star_universe_closed.
  - repeat constructor.
    + exists a_star_start. split; by_computation.
    + exists a_star_start. split; by_computation.
    + exists a_star_error. split; by_computation.
  - exists a_star_error. split; by_computation.
  - by_computation.
Defined.

Example a_star_build_5 :
  build_lex_table (H := model) 5 a_star_table a_star_grammar = Some a_star_result.
Proof. vm_compute. reflexivity. Qed.

Lemma a_star_add_start :
  add_lex_state (H := model) a_star_grammar 5 a_star_start Builder_init
  = Some (0, a_star_interned_start).
Proof. by_computation. Defined.

Lemma a_star_add_error :
  add_lex_state (H := model) a_star_grammar 5 a_star_error a_star_interned_start
  = Some (2, a_star_interned_all).
Proof. by_computation. Defined.

Lemma a_star_build :
  build (H := model) a_star_grammar 5 a_star_table
  = Some (a_star_result.2, a_star_final).
Proof. by_computation. Defined.

Lemma equal_item_sets_share_state_witness :
  add_lex_state (H := model) a_star_grammar 1 a_star_start a_star_interned_all
  = Some (0, a_star_interned_all)
  ∧ ∀ p q, p ∈ ParseTable.states a_star_result.2 →
           q ∈ ParseTable.states a_star_result.2 →
           expected_inputs p = expected_inputs q →
           lex_state_id p = lex_state_id q.
Proof.
  apply (equal_item_sets_share_state (H := model) a_star_grammar 5 0 5
           a_star_start a_star_start Builder_init a_star_interned_start
           a_star_interned_all 0 a_star_table a_star_result.2 a_star_final).
  - exact a_star_add_start.
  - exact (int_ext _ _ _ _ (add_lex_state_ok (H := model) a_star_grammar 5 _ _ _ _
                              a_star_add_error)).
  - reflexivity.
  - exact a_star_build.
Defined.

Lemma error_state_id_not_interned_witness :
  0 ≠ LexTable.ERROR_STATE_ID
  ∧ (∃ b1 error_item_set,
       build_states (H := model) a_star_grammar 5 (ParseTable.states a_star_table)
         Builder_init
       = Some (ParseTable.states a_star_result.2, b1)
       ∧ build_lex_item_set (H := model) a_star_grammar (ParseTable.symbols a_star_table)
         = Some error_item_set
       ∧ LexTable.state LexTable.ERROR_STATE_ID (lex_table b1) = LexState_init
       ∧ populate_lex_state (H := model) a_star_grammar 5 error_item_set
           LexTable.ERROR_STATE_ID b1
         = Some a_star_final
       ∧ untouched (λ id, id ≠ LexTable.ERROR_STATE_ID) (lex_table b1)
           (lex_table a_star_final))
  ∧ (∀ s i, lex_state_ids a_star_final !! s = Some i → i ≠ LexTable.ERROR_STATE_ID)
  ∧ (∀ p, p ∈ ParseTable.states a_star_result.2 →
       lex_state_id p ≠ LexTable.ERROR_STATE_ID
       ∧ 0 ≤ lex_state_id p
         < Z.of_nat (length (LexTable.states (lex_table a_star_final))))
  ∧ (∀ p error_item_set,
       p ∈ ParseTable.states a_star_result.2 →
       build_lex_item_set (H := model) a_star_grammar (expected_inputs p)
       = Some error_item_set →
       build_lex_item_set (H := model) a_star_grammar (ParseTable.symbols a_star_table)
       = Some error_item_set →
       lex_state_ids a_star_final !! error_item_set = Some (lex_state_id p)
       ∧ lex_state_id p ≠ LexTable.ERROR_STATE_ID).
Proof.
  apply (error_state_id_not_interned (H := model) a_star_grammar 5 5 a_star_table
           a_star_result.2 a_star_final Builder_init a_star_interned_start
           a_star_start 0).
  - exact a_star_build.
  - exact Builder_init_wf.
  - exact a_star_add_start.
Defined.

(** The third parse state of [a_star_table] has the item set of the error
    state; it is interned as state 2. *)
Example error_item_set_interned_as_state_2 :
  build_lex_item_set (H := model) a_star_grammar {[ token0; Model.END_OF_INPUT ]}
  = Some a_star_error
  ∧ lex_state_ids a_star_final !! a_star_error = Some 2.
Proof. split; by_computation. Qed.

Lemma after_a_advance :
  add_advance_actions (H := model) ab_grammar 3 after_a 0 after_a_accepted
  = Some after_a_advanced.
Proof. by_computation. Defined.

Lemma advance_folded_against_default_witness :
  default_action (LexTable.state 0 (lex_table after_a_advanced))
  = default_action (LexTable.state 0 (lex_table after_a_accepted))
  ∧ (∀ cs successor, (cs, successor) ∈ transitions (Collaborators := model) after_a →
       ∃ new_state_id,
         lex_state_ids after_a_advanced !! successor = Some new_state_id
         ∧ actions (LexTable.state 0 (lex_table after_a_advanced)) !! cs
           = let action :=
               LexAction.Advance new_state_id
                 (precedence_range_for_item_set (H := model) successor) in
             if resolve (Collaborators := model) ab_grammar action
                  (default_action (LexTable.state 0 (lex_table after_a_accepted)))
             then Some action
             else actions (LexTable.state 0 (lex_table after_a_accepted)) !! cs)
  ∧ (∀ cs, cs ∉ (transitions (Collaborators := model) after_a).*1 →
       actions (LexTable.state 0 (lex_table after_a_advanced)) !! cs
       = actions (LexTable.state 0 (lex_table after_a_accepted)) !! cs).
Proof.
  apply (advance_folded_against_default (H := model) ab_grammar 3 after_a 0
           after_a_accepted after_a_advanced).
  - by_computation.
  - by_computation.
  - exact after_a_advance.
Defined.

(** C1, as stated, fails: in the state of [after_a] no action occupies the
    range of [b], so an action folded against the occupant of the range is
    stored, as in [add_advance_actions_spec]; the builder folds it against
    the default action, an accept at precedence 5, and stores nothing. *)
Lemma advance_not_folded_against_range :
  add_advance_actions (H := model) ab_grammar 3 after_a 0 after_a_accepted
  ≠ add_advance_actions_spec (H := model) ab_grammar 3 after_a 0 after_a_accepted.
Proof.
  intros Heq.
  apply (f_equal (fmap (λ b, actions (LexTable.state 0 (lex_table b)) !! {[ 98%N ]})))
    in Heq.
  vm_compute in Heq. discriminate Heq.
Qed.

Example advance_stores_nothing_for_b :
  (λ b, actions (LexTable.state 0 (lex_table b)) !! ({[ 98%N ]} : gset N))
    <$> add_advance_actions (H := model) ab_grammar 3 after_a 0 after_a_accepted
  = Some None.
Proof. vm_compute. reflexivity. Qed.

Example advance_spec_stores_for_b :
  (λ b, actions (LexTable.state 0 (lex_table b)) !! ({[ 98%N ]} : gset N))
    <$> add_advance_actions_spec (H := model) ab_grammar 3 after_a 0 after_a_accepted
  = Some (Some (LexAction.Advance 1 (PrecedenceRange.mk 0 0 false))).
Proof. vm_compute. reflexivity. Qed.

Lemma passes_order_witness :
  run_passes (H := model) ab_grammar 3 after_a 0
    [AcceptPass; TokenStartPass; AdvancePass] after_a_builder
  = populate_lex_state (H := model) ab_grammar 3 after_a 0 after_a_builder.
Proof.
  apply (passes_order (H := model) ab_grammar 3 after_a 0 after_a_builder
           [AcceptPass; TokenStartPass; AdvancePass]).
  - by_computation.
  - apply list_elem_of_further, list_elem_of_here.
Defined.

(** C2, as stated, fails: with the advance pass before the accept pass the
    state of [after_a] gets an action for [b], which [populate_lex_state]
    does not store. *)
Lemma advance_before_accept_differs :
  [AdvancePass; AcceptPass; TokenStartPass] ≡ₚ [AcceptPass; AdvancePass; TokenStartPass]
  ∧ (λ b, LexTable.state 0 (lex_table b))
      <$> run_passes (H := model) ab_grammar 3 after_a 0
            [AdvancePass; AcceptPass; TokenStartPass] after_a_builder
    ≠ (λ b, LexTable.state 0 (lex_table b))
        <$> populate_lex_state (H := model) ab_grammar 3 after_a 0 after_a_builder.
Proof.
  split; [apply perm_swap|]. intros Heq.
  apply (f_equal (fmap (λ st, actions st !! ({[ 98%N ]} : gset N)))) in Heq.
  vm_compute in Heq. discriminate Heq.
Qed.

Lemma mutations_are_guarded_witness :
  (∀ items item,
     (items ++ [item]) `prefix_of` elements (entries after_a) →
     let before :=
       add_accept_token_actions_on (H := model) ab_grammar items 0
         (lex_table after_a_builder) in
     let after :=
       add_accept_token_actions_on (H := model) ab_grammar (items ++ [item]) 0
         (lex_table after_a_builder) in
     let candidate :=
       LexAction.Accept (lhs item)
         (precedence (get_completion_status (Collaborators := model) (rule item))) in
     after = before
     ∨ (resolve (Collaborators := model) ab_grammar candidate
          (default_action (LexTable.state 0 before)) = true
        ∧ after = LexTable.modify (set_default_action candidate) 0 before))
  ∧ (∀ ts t before after,
       (ts ++ [t]) `prefix_of` transitions (Collaborators := model) after_a →
       add_advance_actions_on (H := model) ab_grammar
         (add_lex_state (H := model) ab_grammar 3) ts 0 after_a_builder = Some before →
       add_advance_actions_on (H := model) ab_grammar
         (add_lex_state (H := model) ab_grammar 3) (ts ++ [t]) 0 after_a_builder
       = Some after →
       untouched (λ id, id ≠ 0) (lex_table before) (lex_table after)
       ∧ (LexTable.state 0 (lex_table after) = LexTable.state 0 (lex_table before)
          ∨ ∃ new_state_id,
              let candidate :=
                LexAction.Advance new_state_id
                  (precedence_range_for_item_set (H := model) t.2) in
              lex_state_ids after !! t.2 = Some new_state_id
              ∧ resolve (Collaborators := model) ab_grammar candidate
                  (default_action (LexTable.state 0 (lex_table before))) = true
              ∧ LexTable.state 0 (lex_table after)
                = set_action t.1 candidate (LexTable.state 0 (lex_table before)))
       ∧ (NoDup (transitions (Collaborators := model) after_a).*1 →
          actions (LexTable.state 0 (lex_table after_a_builder)) = ∅ →
          actions (LexTable.state 0 (lex_table before)) !! t.1 = None))
  ∧ (∀ tbl item_set',
       actions (LexTable.state (LexTable.add_state tbl).1
                  (add_accept_token_actions (H := model) ab_grammar item_set'
                     (LexTable.add_state tbl).1 (LexTable.add_state tbl).2)) = ∅)
  ∧ (∀ build_fuel states states' b1 item_set',
       build_states (H := model) ab_grammar build_fuel states Builder_init
       = Some (states', b1) →
       actions (LexTable.state LexTable.ERROR_STATE_ID
                  (add_accept_token_actions (H := model) ab_grammar item_set'
                     LexTable.ERROR_STATE_ID (lex_table b1))) = ∅).
Proof.
  apply (mutations_are_guarded (H := model) ab_grammar 3 after_a 0 after_a_builder).
  by_computation.
Defined.

(** ** Soundness of the table under construction *)

Section soundness.
Context `{!Collaborators}.
Variable lex_grammar : LexicalGrammar.

Implicit Types (b : Builder) (tbl : LexTable.t) (id state_id : LexStateId).
Implicit Types (item_set : LexItemSet) (ts : list (CharacterSet * LexItemSet)).

Local Abbreviation add_lex_state := (add_lex_state lex_grammar).
Local Abbreviation add_advance_actions_on := (add_advance_actions_on lex_grammar).
Local Abbreviation advance_step := (advance_step lex_grammar).
Local Abbreviation populate_lex_state_with := (populate_lex_state_with lex_grammar).
Local Abbreviation add_accept_token_actions_on := (add_accept_token_actions_on lex_grammar).
Local Abbreviation accept_step := (accept_step lex_grammar).

Lemma state_sound_mono b b' item_set st :
  lex_state_ids b ⊆ lex_state_ids b' →
  state_sound b item_set st → state_sound b' item_set st.
Proof.
  intros Hsub [Hd Ha Hf]. split; [done| |done].
  intros cs a Hcs. destruct (Ha cs a Hcs) as (succ & nid & Hin & Hid & ->).
  exists succ, nid. split_and!; [done| |done]. by eapply lookup_weaken.
Qed.

Lemma state_sound_init b item_set : state_sound b item_set LexState_init.
Proof.
  split; simpl; [by left| |done]. intros cs a. by rewrite lookup_empty.
Qed.

Lemma populating_valid item_set state_id b :
  populating item_set state_id b → LexTable.valid state_id (lex_table b).
Proof.
  intros [[[Hids _] _ _] _ [Hid| ->]]; [|by left]. right. by apply (Hids item_set).
Qed.

(** A write to the state being populated that keeps it sound keeps the
    builder sound. *)
Lemma populating_modify f item_set state_id b :
  populating item_set state_id b →
  (∀ st, state_sound b item_set st → state_sound b item_set (f st)) →
  populating item_set state_id (on_table (LexTable.modify f state_id) b).
Proof.
  intros Hpop Hf. pose proof (populating_valid _ _ _ Hpop) as Hv.
  destruct Hpop as [[[Hids Hcount] Hbij Hstates] Hstate Htarget].
  assert (∀ s st, state_sound b s st
            → state_sound (on_table (LexTable.modify f state_id) b) s st) as Hsame.
  { intros s st. by apply state_sound_mono. }
  split; [split; [split|split|]| |]; simpl; rewrite ?length_modify; try done.
  - by destruct Hbij.
  - by destruct Hbij.
  - intros s id Hs. apply Hsame. destruct (decide (id = state_id)) as [->|Hne].
    + rewrite state_modify_eq by done.
      assert (s = item_set) as ->; [|by apply Hf].
      destruct Htarget as [Hid| ->].
      * exact (bij_inj _ Hbij _ _ _ Hs Hid).
      * specialize (Hids _ _ Hs). unfold LexTable.ERROR_STATE_ID in Hids. lia.
    + rewrite state_modify_ne by done. by apply Hstates.
  - apply Hsame. rewrite state_modify_eq by done. by apply Hf.
Qed.

Lemma populating_accept item_set state_id items b :
  Forall (λ item, item ∈ entries item_set) items →
  populating item_set state_id b →
  populating item_set state_id
    (on_table (add_accept_token_actions_on items state_id) b).
Proof.
  intros Hitems. revert b. induction Hitems as [|item items Hin _ IH]; intros b Hpop.
  { by destruct b. }
  change (on_table (add_accept_token_actions_on (item :: items) state_id) b)
    with (on_table (add_accept_token_actions_on items state_id)
            (on_table (λ tbl, accept_step state_id tbl item) b)).
  apply IH. unfold on_table. simpl.
  destruct (accept_step_cases lex_grammar state_id (lex_table b) item)
    as [->|(Hdone & _ & ->)]; [by destruct b|].
  apply (populating_modify _ _ _ _ Hpop). intros st [Hd Ha Hf].
  split; simpl; [|done..]. right. by exists item.
Qed.

Lemma populating_token_start item_set state_id b :
  populating item_set state_id b →
  populating item_set state_id (on_table (add_token_start item_set state_id) b).
Proof.
  intros Hpop. unfold on_table. rewrite add_token_start_alt.
  destruct (existsb _ _) eqn:Hex; [|by destruct b].
  apply (populating_modify _ _ _ _ Hpop). intros st [Hd Ha Hf].
  split; simpl; [done..|]. intros _.
  apply existsb_exists in Hex as (item & Hin & Hstart).
  exists item. split; [|done]. by apply elem_of_elements, list_elem_of_In.
Qed.

Lemma populating_advance_step rec item_set state_id b t b1 :
  rec_ok rec → rec_sound rec → t ∈ transitions item_set →
  populating item_set state_id b →
  advance_step rec state_id (Some b) t = Some b1 →
  populating item_set state_id b1.
Proof.
  intros Hok Hsound Ht Hpop (nid & b0 & Hrec & Hb1)%advance_step_Some.
  pose proof (populating_valid _ _ _ Hpop) as Hv.
  destruct (Hok _ _ _ _ Hrec) as [Hext Hid Hframe _].
  assert (populating item_set state_id b0) as Hpop0.
  { destruct Hpop as [Hs Hstate Htarget]. split.
    - by eapply Hsound.
    - rewrite Hframe by done. eapply state_sound_mono; [|done]. by destruct Hext.
    - destruct Htarget as [Htarget|?]; [left|by right].
      eapply lookup_weaken; [done|]. by destruct Hext. }
  destruct Hb1 as [[_ ->]|[_ ->]]; [done|].
  apply (populating_modify _ _ _ _ Hpop0). intros st [Hd Ha Hf].
  split; simpl; [done| |done]. intros cs a.
  destruct (decide (t.1 = cs)) as [<-|Hne].
  - rewrite lookup_insert_eq. intros [= <-]. exists t.2, nid.
    split_and!; [|done..]. by destruct t.
  - rewrite lookup_insert_ne by done. apply Ha.
Qed.

Lemma populating_advance rec item_set state_id ts b b' :
  rec_ok rec → rec_sound rec → Forall (λ t, t ∈ transitions item_set) ts →
  populating item_set state_id b →
  add_advance_actions_on rec ts state_id b = Some b' →
  populating item_set state_id b'.
Proof.
  intros Hok Hsound Hts. revert b.
  induction Hts as [|t ts Ht _ IH]; intros b Hpop; [by intros [= <-]|].
  rewrite (add_advance_actions_on_cons lex_grammar).
  destruct (advance_step rec state_id (Some b) t) as [b1|] eqn:Hstep; [|done].
  simpl. apply IH. by eapply populating_advance_step.
Qed.

Lemma populating_populate rec item_set state_id b b' :
  rec_ok rec → rec_sound rec →
  populating item_set state_id b →
  populate_lex_state_with rec item_set state_id b = Some b' →
  populating item_set state_id b'.
Proof.
  intros Hok Hsound Hpop. unfold populate_lex_state_with, add_advance_actions_with.
  destruct (add_advance_actions_on _ _ _ _) as [b1|] eqn:Hadv; [|done].
  simpl. intros [= <-]. apply populating_token_start.
  eapply populating_advance; [done..| | |exact Hadv].
  - by apply Forall_forall.
  - apply populating_accept; [|done].
    apply Forall_forall. intros item. apply elem_of_elements.
Qed.

Lemma Builder_sound_init : Builder_sound Builder_init.
Proof.
  split; [apply Builder_init_wf|split|]; simpl.
  - intros s1 s2 id. by rewrite lookup_empty.
  - intros i. lia.
  - intros s id. by rewrite lookup_empty.
Qed.

(** Interning a new item set with a fresh state keeps the builder sound. *)
Lemma populating_insert item_set b :
  Builder_sound b → lex_state_ids b !! item_set = None →
  populating item_set (LexTable.add_state (lex_table b)).1
    (mkBuilder (<[item_set := (LexTable.add_state (lex_table b)).1]> (lex_state_ids b))
               (LexTable.add_state (lex_table b)).2).
Proof.
  intros [Hwf [Hinj Hsurj] Hstates] Hnone.
  pose proof (extends_insert _ _ Hnone) as Hext.
  pose proof (extends_wf _ _ Hext Hwf) as Hwf1.
  destruct Hwf as [Hids Hcount].
  split; [split; [done|split|]| |]; simpl.
  - intros s1 s2 id.
    destruct (decide (item_set = s1)) as [<-|H1], (decide (item_set = s2)) as [<-|H2];
      rewrite ?lookup_insert_eq, ?lookup_insert_ne by done; try done.
    + intros [= <-] Hs2. specialize (Hids _ _ Hs2). lia.
    + intros Hs1 [= <-]. specialize (Hids _ _ Hs1). lia.
    + apply Hinj.
  - intros i. rewrite length_app. simpl. intros Hi.
    destruct (decide (i = length (LexTable.states (lex_table b)))) as [->|Hne].
    + exists item_set. by rewrite lookup_insert_eq.
    + destruct (Hsurj i) as [s Hs]; [lia|]. exists s.
      rewrite lookup_insert_ne; [done|]. intros <-. congruence.
  - intros s id. destruct (decide (item_set = s)) as [<-|Hne].
    + rewrite lookup_insert_eq. intros [= <-].
      pose proof (state_add_state_new (lex_table b)) as Hnew. simpl in Hnew.
      rewrite Hnew. apply state_sound_init.
    + rewrite lookup_insert_ne by done. intros Hs.
      pose proof (state_add_state id (lex_table b)) as Hold. simpl in Hold.
      rewrite Hold by (right; by apply (Hids s)).
      eapply state_sound_mono; [|by apply Hstates]. simpl. by apply insert_subseteq.
  - pose proof (state_add_state_new (lex_table b)) as Hnew. simpl in Hnew.
    rewrite Hnew. apply state_sound_init.
  - left. apply lookup_insert_eq.
Qed.

Lemma add_lex_state_sound fuel : rec_sound (add_lex_state fuel).
Proof.
  induction fuel as [|fuel IH]; intros item_set b id b' Hsound; [done|].
  rewrite add_lex_state_S.
  destruct (lex_state_ids b !! item_set) as [id0|] eqn:Hlook; [by intros [= <- <-]|].
  simpl. destruct (populate_lex_state_with _ _ _ _) as [b1|] eqn:Hpop; [|done].
  simpl. intros [= <- <-].
  eapply populating_populate in Hpop as [? _ _];
    [done|apply add_lex_state_ok|done|by apply populating_insert].
Qed.

Lemma build_loop_sound fuel states prev b prev' b' :
  Builder_sound b →
  foldl (build_step lex_grammar fuel) (Some (prev, b)) states = Some (prev', b') →
  Builder_sound b'.
Proof.
  revert prev b. induction states as [|p states IH]; intros prev b Hsound.
  { by intros [= <- <-]. }
  cbn [foldl].
  destruct (build_step lex_grammar fuel (Some (prev, b)) p) as [[prev1 b1]|] eqn:Hstep;
    [|by rewrite foldl_build_step_None'].
  apply build_step_Some in Hstep as (item_set & id & b1' & _ & Hadd & [= -> ->]).
  apply IH. by eapply add_lex_state_sound.
Qed.

(** The builder that [build] leaves is sound, and so is the error state for
    the item set of all symbols. *)
Lemma build_sound fuel parse_table parse_table' final error_item_set :
  build lex_grammar fuel parse_table = Some (parse_table', final) →
  build_lex_item_set lex_grammar (ParseTable.symbols parse_table) = Some error_item_set →
  populating error_item_set LexTable.ERROR_STATE_ID final.
Proof.
  intros Hbuild Herr.
  apply build_from_ok in Hbuild
    as (b1 & e & Hloop & He & Hpop & _ & _ & _ & Hf1 & _ & _ & _).
  rewrite Herr in He. injection He as <-.
  eapply populating_populate; [apply add_lex_state_ok|apply add_lex_state_sound| |done].
  split.
  - eapply build_loop_sound; [apply Builder_sound_init|exact Hloop].
  - rewrite Hf1; [apply state_sound_init|by left|done].
  - by right.
Qed.

End soundness.

(** ** Further properties of the passes and of the whole build *)

Section more_properties.
Context `{!Collaborators}.
Variable lex_grammar : LexicalGrammar.

Implicit Types (b : Builder) (tbl : LexTable.t) (id state_id : LexStateId).
Implicit Types (item_set : LexItemSet) (ts : list (CharacterSet * LexItemSet)).

Local Abbreviation add_lex_state := (add_lex_state lex_grammar).
Local Abbreviation populate_lex_state := (populate_lex_state lex_grammar).
Local Abbreviation add_accept_token_actions := (add_accept_token_actions lex_grammar).
Local Abbreviation add_accept_token_actions_on := (add_accept_token_actions_on lex_grammar).
Local Abbreviation build_lex_item_set := (build_lex_item_set lex_grammar).

Lemma state_of_nat tbl i st :
  LexTable.states tbl !! i = Some st → LexTable.state (Z.of_nat i) tbl = st.
Proof.
  intros Hi. unfold LexTable.state.
  rewrite decide_False, decide_True, Nat2Z.id, Hi
    by (unfold LexTable.ERROR_STATE_ID; lia). done.
Qed.

Lemma untouched_prefix tbl tbl' :
  (length (LexTable.states tbl) ≤ length (LexTable.states tbl'))%nat →
  untouched (λ id, id ≠ LexTable.ERROR_STATE_ID) tbl tbl' →
  LexTable.states tbl `prefix_of` LexTable.states tbl'.
Proof.
  intros Hlen Hu. exists (drop (length (LexTable.states tbl)) (LexTable.states tbl')).
  rewrite <-(take_drop (length (LexTable.states tbl)) (LexTable.states tbl')) at 1.
  f_equal. apply list_eq. intros i.
  destruct (decide (i < length (LexTable.states tbl))%nat) as [Hi|Hi].
  - rewrite lookup_take_lt by done.
    destruct (lookup_lt_is_Some_2 (LexTable.states tbl) i) as [x Hx]; [done|].
    destruct (lookup_lt_is_Some_2 (LexTable.states tbl') i) as [y Hy]; [lia|].
    rewrite Hx, Hy. f_equal.
    rewrite <-(state_of_nat _ _ _ Hx), <-(state_of_nat _ _ _ Hy).
    apply (Hu (Z.of_nat i)); [right; lia|unfold LexTable.ERROR_STATE_ID; lia].
  - rewrite lookup_take_ge by lia. symmetry. apply lookup_ge_None_2. lia.
Qed.

Lemma token_start_flag item_set state_id tbl :
  LexTable.valid state_id tbl →
  is_token_start (LexTable.state state_id (add_token_start item_set state_id tbl)) = true
  ↔ is_token_start (LexTable.state state_id tbl) = true
    ∨ ∃ item, item ∈ entries item_set ∧ LexItem_is_token_start item = true.
Proof.
  intros Hv. rewrite add_token_start_alt. destruct (existsb _ _) eqn:Hex.
  - rewrite state_modify_eq by done. simpl. split; [|done]. intros _. right.
    apply existsb_exists in Hex as (item & Hin & Hstart).
    exists item. split; [|done]. by apply elem_of_elements, list_elem_of_In.
  - split; [by left|]. intros [?|(item & Hin & Hstart)]; [done|].
    assert (existsb LexItem_is_token_start (elements (entries item_set)) = true)
      as Hex'; [|congruence].
    apply existsb_exists. exists item. split; [|done].
    by apply list_elem_of_In, elem_of_elements.
Qed.

(** X1: [add_token_start] sets the flag of the state when some item of the
    set starts a token and never clears it; it leaves the default action and
    the actions of the state, the other states and the number of states as
    they are. *)
Theorem add_token_start_effect (item_set : LexItemSet) (state_id : LexStateId)
    (tbl : LexTable.t) :
  LexTable.valid state_id tbl →
  let tbl' := add_token_start item_set state_id tbl in
  (is_token_start (LexTable.state state_id tbl') = true
   ↔ is_token_start (LexTable.state state_id tbl) = true
     ∨ ∃ item, item ∈ entries item_set ∧ LexItem_is_token_start item = true)
  ∧ default_action (LexTable.state state_id tbl')
    = default_action (LexTable.state state_id tbl)
  ∧ actions (LexTable.state state_id tbl') = actions (LexTable.state state_id tbl)
  ∧ untouched (λ id, id ≠ state_id) tbl tbl'
  ∧ length (LexTable.states tbl') = length (LexTable.states tbl).
Proof.
  intros Hv. simpl. split_and!.
  - by apply token_start_flag.
  - by apply (add_token_start_proj default_action).
  - by apply (add_token_start_proj actions).
  - apply add_token_start_untouched.
  - apply length_add_token_start.
Qed.

(** X2: after [add_accept_token_actions] the default action of the state is
    the one it had or accepts the token of a completed item of the set, at
    the precedence of its completion; when no item is complete the table is
    unchanged; the actions and the flag of the state, the other states and
    the number of states are as they were. *)
Theorem add_accept_token_actions_effect (item_set : LexItemSet)
    (state_id : LexStateId) (tbl : LexTable.t) :
  LexTable.valid state_id tbl →
  let tbl' := add_accept_token_actions item_set state_id tbl in
  (default_action (LexTable.state state_id tbl')
   = default_action (LexTable.state state_id tbl)
   ∨ ∃ item, item ∈ entries item_set
       ∧ is_done (get_completion_status (rule item)) = true
       ∧ default_action (LexTable.state state_id tbl')
         = LexAction.Accept (lhs item) (precedence (get_completion_status (rule item))))
  ∧ ((∀ item, item ∈ entries item_set →
        is_done (get_completion_status (rule item)) = false) → tbl' = tbl)
  ∧ actions (LexTable.state state_id tbl') = actions (LexTable.state state_id tbl)
  ∧ is_token_start (LexTable.state state_id tbl')
    = is_token_start (LexTable.state state_id tbl)
  ∧ untouched (λ id, id ≠ state_id) tbl tbl'
  ∧ length (LexTable.states tbl') = length (LexTable.states tbl).
Proof.
  intros Hv. simpl. unfold add_accept_token_actions. split_and!.
  - assert (∀ items tbl0,
      LexTable.valid state_id tbl0 →
      Forall (λ item, item ∈ entries item_set) items →
      default_action (LexTable.state state_id
                        (add_accept_token_actions_on items state_id tbl0))
      = default_action (LexTable.state state_id tbl0)
      ∨ ∃ item, item ∈ entries item_set
          ∧ is_done (get_completion_status (rule item)) = true
          ∧ default_action (LexTable.state state_id
                              (add_accept_token_actions_on items state_id tbl0))
            = LexAction.Accept (lhs item)
                (precedence (get_completion_status (rule item)))) as Hloop.
    { intros items. induction items as [|item items IH]; intros tbl0 Hv0 Hitems;
        [by left|].
      apply Forall_cons in Hitems as [Hin Hitems].
      change (add_accept_token_actions_on (item :: items) state_id tbl0)
        with (add_accept_token_actions_on items state_id
                (accept_step lex_grammar state_id tbl0 item)).
      destruct (accept_step_cases lex_grammar state_id tbl0 item)
        as [->|(Hdone & _ & ->)]; [by apply IH|].
      set (new_action := LexAction.Accept (lhs item)
                            (precedence (get_completion_status (rule item)))).
      destruct (IH (LexTable.modify (set_default_action new_action) state_id tbl0))
        as [Heq|Hex]; [by apply valid_modify|done| |by right].
      right. exists item. split_and!; [done..|].
      rewrite Heq. by rewrite state_modify_eq. }
    apply Hloop; [done|]. apply Forall_forall. intros item. apply elem_of_elements.
  - intros Hnone.
    assert (Forall (λ item, is_done (get_completion_status (rule item)) = false)
              (elements (entries item_set))) as Hall.
    { apply Forall_forall. intros item Hin. by apply Hnone, elem_of_elements. }
    revert tbl Hv.
    induction Hall as [|item items Hitem _ IH]; intros tbl Hv; [done|].
    change (add_accept_token_actions_on (item :: items) state_id tbl)
      with (add_accept_token_actions_on items state_id
              (accept_step lex_grammar state_id tbl item)).
    assert (accept_step lex_grammar state_id tbl item = tbl) as ->; [|by apply IH].
    unfold accept_step. by rewrite Hitem.
  - by apply (accept_on_proj lex_grammar actions).
  - by apply (accept_on_proj lex_grammar is_token_start).
  - apply accept_on_untouched.
  - apply length_accept_on.
Qed.

(** X3: [add_lex_state] only appends: the states of the table before the
    call are a prefix of the states after it, the error state and the
    entries of the interning table are kept, and the item set is interned
    under the identifier returned; for an item set that was not interned the
    identifier is the number of states before the call. *)
Theorem add_lex_state_appends (fuel : nat) (item_set : LexItemSet) (b b' : Builder)
    (id : LexStateId) :
  add_lex_state fuel item_set b = Some (id, b') →
  LexTable.states (lex_table b) `prefix_of` LexTable.states (lex_table b')
  ∧ LexTable.error_state (lex_table b') = LexTable.error_state (lex_table b)
  ∧ lex_state_ids b ⊆ lex_state_ids b'
  ∧ lex_state_ids b' !! item_set = Some id
  ∧ (lex_state_ids b !! item_set = None →
     id = Z.of_nat (length (LexTable.states (lex_table b)))
     ∧ (length (LexTable.states (lex_table b))
        < length (LexTable.states (lex_table b')))%nat).
Proof.
  intros Hadd. pose proof Hadd as [Hext Hid Hframe _]%add_lex_state_ok.
  split_and!; try done.
  - apply untouched_prefix; [by destruct Hext|].
    eapply untouched_weaken; [|done]. done.
  - apply (Hframe LexTable.ERROR_STATE_ID); [by left|done].
  - by destruct Hext.
  - intros Hnone. destruct fuel as [|fuel]; [done|].
    rewrite add_lex_state_S, Hnone in Hadd. simpl in Hadd.
    destruct (populate_lex_state_with _ _ _ _ _) as [b1|] eqn:Hpop; [|done].
    injection Hadd as <- <-. split; [done|].
    apply populate_ok in Hpop as ([_ Hlen _ _] & _);
      [|apply add_lex_state_ok|apply valid_add_state_new].
    simpl in Hlen. rewrite length_app in Hlen. simpl in Hlen. lia.
Qed.

(** X4: [populate_lex_state] leaves in the state it populates the default
    action that the accept pass computes, and sets its flag when an item
    starts a token; of the states that existed it changes no other, and it
    keeps the entries of the interning table. *)
Theorem populate_lex_state_effect (fuel : nat) (item_set : LexItemSet)
    (state_id : LexStateId) (b b' : Builder) :
  LexTable.valid state_id (lex_table b) →
  populate_lex_state fuel item_set state_id b = Some b' →
  default_action (LexTable.state state_id (lex_table b'))
  = default_action
      (LexTable.state state_id (add_accept_token_actions item_set state_id (lex_table b)))
  ∧ (is_token_start (LexTable.state state_id (lex_table b')) = true
     ↔ is_token_start (LexTable.state state_id (lex_table b)) = true
       ∨ ∃ item, item ∈ entries item_set ∧ LexItem_is_token_start item = true)
  ∧ untouched (λ id, id ≠ state_id) (lex_table b) (lex_table b')
  ∧ lex_state_ids b ⊆ lex_state_ids b'.
Proof.
  intros Hv Hpop. pose proof Hpop as (Hext & Hframe & _)%populate_ok;
    [|apply add_lex_state_ok|done].
  revert Hpop.
  unfold populate_lex_state, populate_lex_state_with, add_advance_actions_with.
  destruct (add_advance_actions_on _ _ _ _ _) as [b1|] eqn:Hadv; [|done].
  simpl. intros [= <-].
  apply advance_on_ok in Hadv as [Hext1 _ Hdef Hflag _];
    [|apply add_lex_state_ok|by apply valid_accept].
  simpl in Hdef, Hflag. simpl.
  assert (LexTable.valid state_id (lex_table b1)) as Hv1.
  { eapply extends_valid; [exact Hext1|]. by apply valid_accept. }
  split_and!; [| |done|by destruct Hext].
  - by rewrite (add_token_start_proj default_action).
  - rewrite (token_start_flag item_set state_id (lex_table b1) Hv1), Hflag.
    unfold add_accept_token_actions.
    by rewrite (accept_on_proj lex_grammar is_token_start).
Qed.

(** X7: [build] writes nothing of a parse state but its [lex_state_id]: the
    parse states keep their number, their order and their expected inputs,
    and the symbols of the parse table are kept. *)
Theorem build_keeps_parse_states (fuel : nat) (table table' : ParseTable.t)
    (final : Builder) :
  build lex_grammar fuel table = Some (table', final) →
  expected_inputs <$> ParseTable.states table'
  = expected_inputs <$> ParseTable.states table
  ∧ length (ParseTable.states table') = length (ParseTable.states table)
  ∧ ParseTable.symbols table' = ParseTable.symbols table.
Proof.
  intros (_ & _ & _ & _ & _ & Hsym & _ & _ & _ & _ & Hexp & _)%build_from_ok.
  split_and!; [done| |done].
  by rewrite <-(length_fmap expected_inputs), Hexp, length_fmap.
Qed.

Lemma build_Builder_sound fuel table table' final :
  build lex_grammar fuel table = Some (table', final) →
  ∃ error_item_set,
    build_lex_item_set (ParseTable.symbols table) = Some error_item_set
    ∧ populating error_item_set LexTable.ERROR_STATE_ID final.
Proof.
  intros Hbuild. pose proof Hbuild as (_ & e & _ & He & _)%build_from_ok.
  exists e. split; [done|]. by eapply build_sound.
Qed.

(** X5: when [build] returns, the interning table is a one-to-one
    correspondence between the interned item sets and the indices of the
    states of the table: different item sets have different identifiers,
    every identifier is an index, and every index is the identifier of an
    item set. *)
Theorem interning_is_one_to_one (fuel : nat) (table table' : ParseTable.t)
    (final : Builder) :
  build lex_grammar fuel table = Some (table', final) →
  (∀ s1 s2 id, lex_state_ids final !! s1 = Some id →
               lex_state_ids final !! s2 = Some id → s1 = s2)
  ∧ (∀ s id, lex_state_ids final !! s = Some id →
       0 ≤ id < Z.of_nat (length (LexTable.states (lex_table final))))
  ∧ (∀ i, (i < length (LexTable.states (lex_table final)))%nat →
       ∃ s, lex_state_ids final !! s = Some (Z.of_nat i))
  ∧ length (LexTable.states (lex_table final)) = size (lex_state_ids final).
Proof.
  intros (e & _ & [[[Hids Hcount] [Hinj Hsurj] _] _ _])%build_Builder_sound.
  by split_and!.
Qed.

(** X6: two parse states get the same [lex_state_id] exactly when their
    item sets are equal. *)
Theorem lex_state_id_identifies_item_set (fuel : nat) (table table' : ParseTable.t)
    (final : Builder) (p q : ParseState) (item_set_p item_set_q : LexItemSet) :
  build lex_grammar fuel table = Some (table', final) →
  p ∈ ParseTable.states table' → q ∈ ParseTable.states table' →
  build_lex_item_set (expected_inputs p) = Some item_set_p →
  build_lex_item_set (expected_inputs q) = Some item_set_q →
  lex_state_id p = lex_state_id q ↔ item_set_p = item_set_q.
Proof.
  intros Hbuild Hp Hq Hsp Hsq.
  pose proof Hbuild as (e & _ & [[_ [Hinj _] _] _ _])%build_Builder_sound.
  apply build_from_ok in Hbuild
    as (_ & _ & _ & _ & _ & _ & _ & _ & _ & _ & _ & Hass).
  destruct (proj1 (Forall_forall _ _) Hass p Hp) as (sp & Hsp' & Hidp).
  destruct (proj1 (Forall_forall _ _) Hass q Hq) as (sq & Hsq' & Hidq).
  rewrite Hsp in Hsp'. rewrite Hsq in Hsq'.
  injection Hsp' as <-. injection Hsq' as <-. split.
  - intros Heq. rewrite Heq in Hidp. by eapply Hinj.
  - intros ->. congruence.
Qed.

(** X8: when [build] returns, the state of every interned item set, and the
    error state for the item set of all symbols, hold only what the item set
    warrants: the default action is the error action or accepts the token of
    a completed item of the set, every action is the advance for a
    transition of the set to the state under which the successor is
    interned, with the precedence range of the successor, and the flag is
    set only if an item of the set starts a token. *)
Theorem built_table_is_sound (fuel : nat) (table table' : ParseTable.t)
    (final : Builder) (error_item_set : LexItemSet) :
  build lex_grammar fuel table = Some (table', final) →
  build_lex_item_set (ParseTable.symbols table) = Some error_item_set →
  (∀ item_set id, lex_state_ids final !! item_set = Some id →
     state_sound final item_set (LexTable.state id (lex_table final)))
  ∧ state_sound final error_item_set (LexTable.error_state (lex_table final)).
Proof.
  intros Hbuild Herr.
  destruct (build_sound _ _ _ _ _ _ Hbuild Herr) as [[_ _ Hstates] Hstate _].
  by split.
Qed.

(** X9: in the table that [build] returns no action dangles: every action
    of every state, the error state included, is an advance to the index of
    a state of the table, and every default action is the error action or an
    accept. *)
Theorem built_table_has_no_dangling_action (fuel : nat) (table table' : ParseTable.t)
    (final : Builder) (st : LexState) :
  build lex_grammar fuel table = Some (table', final) →
  st ∈ LexTable.states (lex_table final) ∨ st = LexTable.error_state (lex_table final) →
  (∀ cs a, actions st !! cs = Some a →
     ∃ id range, a = LexAction.Advance id range
                 ∧ 0 ≤ id < Z.of_nat (length (LexTable.states (lex_table final))))
  ∧ (default_action st = LexAction.Error
     ∨ ∃ symbol precedence, default_action st = LexAction.Accept symbol precedence).
Proof.
  intros (e & _ & [[[Hids _] [_ Hsurj] Hstates] Hstate _])%build_Builder_sound Hst.
  assert (∃ s, state_sound final s st) as [s [Hd Ha _]].
  { destruct Hst as [(i & Hi)%list_elem_of_lookup| ->]; [|by exists e].
    destruct (Hsurj i) as [s Hs]; [by eapply lookup_lt_Some|].
    exists s. rewrite <-(state_of_nat _ _ _ Hi). by apply Hstates. }
  split.
  - intros cs a (succ & nid & _ & Hnid & ->)%Ha. eexists nid, _. split; [done|].
    by apply (Hids succ).
  - destruct Hd as [?|(item & _ & _ & ?)]; [by left|right; eauto].
Qed.

(** X10: the item set of a union of symbol sets is the union of their item
    sets; so the item set of a subset of the symbols is included in the item
    set of the symbols, and the empty set of symbols has the empty item
    set. *)
Theorem build_lex_item_set_union (symbols1 symbols2 : gset Symbol)
    (item_set1 item_set2 : LexItemSet) :
  build_lex_item_set symbols1 = Some item_set1 →
  build_lex_item_set symbols2 = Some item_set2 →
  build_lex_item_set (symbols1 ∪ symbols2)
  = Some (mkLexItemSet (entries item_set1 ∪ entries item_set2))
  ∧ (symbols1 ⊆ symbols2 → entries item_set1 ⊆ entries item_set2)
  ∧ build_lex_item_set ∅ = Some (mkLexItemSet ∅).
Proof.
  intros H1 H2.
  assert (∀ symbols r, build_lex_item_set symbols = Some r →
            symbols_defined lex_grammar symbols) as Hdef.
  { intros symbols r Hr s Hs%elem_of_elements. revert Hr.
    unfold build_lex_item_set.
    generalize (Some (mkLexItemSet ∅)) as acc. revert Hs.
    induction (elements symbols) as [|x l IH]; intros Hs acc; [by apply elem_of_nil in Hs|].
    cbn [foldl]. intros Hfold.
    destruct (build_lex_item_set_step lex_grammar acc x) as [r1|] eqn:Hstep;
      [|by rewrite foldl_build_step_None in Hfold].
    apply elem_of_cons in Hs as [->|Hs]; [|by eapply IH].
    unfold build_lex_item_set_step in Hstep. destruct acc as [r0|]; [|done].
    simpl in Hstep. destruct (symbol_rules lex_grammar x); [by eexists|done]. }
  split_and!.
  - destruct (build_lex_item_set_total lex_grammar (symbols1 ∪ symbols2)) as [r Hr].
    { intros s [Hs|Hs]%elem_of_union; [by eapply (Hdef symbols1)|by eapply (Hdef symbols2)]. }
    rewrite Hr. f_equal. destruct r as [r]. f_equal. apply set_eq. intros item.
    rewrite elem_of_union.
    rewrite (elem_of_build_lex_item_set _ _ _ item Hr),
      (elem_of_build_lex_item_set _ _ _ item H1),
      (elem_of_build_lex_item_set _ _ _ item H2).
    setoid_rewrite elem_of_union. naive_solver.
  - intros Hsub item.
    rewrite (elem_of_build_lex_item_set _ _ _ item H1),
      (elem_of_build_lex_item_set _ _ _ item H2).
    intros (s & rs & r & sep & Hs & Hrest). exists s, rs, r, sep. split; [|done].
    by apply Hsub.
  - unfold build_lex_item_set. by rewrite elements_empty.
Qed.

End more_properties.

(** ** The exploration is closed under transitions *)

Section closure.
Context `{!Collaborators}.
Variable lex_grammar : LexicalGrammar.

Implicit Types (b : Builder) (tbl : LexTable.t) (id state_id : LexStateId).
Implicit Types (item_set : LexItemSet) (ts : list (CharacterSet * LexItemSet)).
Implicit Types (P : LexItemSet → Prop).

Local Abbreviation add_lex_state := (add_lex_state lex_grammar).
Local Abbreviation add_advance_actions_on := (add_advance_actions_on lex_grammar).
Local Abbreviation advance_step := (advance_step lex_grammar).
Local Abbreviation populate_lex_state_with := (populate_lex_state_with lex_grammar).
Local Abbreviation build_lex_item_set := (build_lex_item_set lex_grammar).

Lemma closed_except_same_ids P b b' :
  lex_state_ids b' = lex_state_ids b → closed_except P b → closed_except P b'.
Proof. unfold closed_except. by intros ->. Qed.

Lemma advance_on_closed rec ts state_id b b' P :
  rec_ok rec → rec_closed rec → closed_except P b →
  add_advance_actions_on rec ts state_id b = Some b' →
  closed_except P b'
  ∧ lex_state_ids b ⊆ lex_state_ids b'
  ∧ Forall (λ t, is_Some (lex_state_ids b' !! t.2)) ts.
Proof.
  intros Hok Hclosed. revert b. induction ts as [|t ts IH]; intros b Hb.
  { intros [= <-]. by split_and!. }
  rewrite (add_advance_actions_on_cons lex_grammar).
  destruct (advance_step rec state_id (Some b) t) as [b1|] eqn:Hstep; [|done].
  simpl. intros Hrest.
  pose proof Hstep as (nid & b0 & Hrec & Hb1)%advance_step_Some.
  destruct (Hok _ _ _ _ Hrec) as [[Hsub0 _ _ _] Hid _ _].
  assert (lex_state_ids b1 = lex_state_ids b0) as Hids1.
  { by destruct Hb1 as [[_ ->]|[_ ->]]. }
  destruct (IH b1) as (Hc & Hsub & Hall); [|done|].
  { apply (closed_except_same_ids P b0); [done|]. by eapply Hclosed. }
  rewrite Hids1 in Hsub. split_and!; [done|by etrans|].
  constructor; [|done]. exists nid. by eapply lookup_weaken.
Qed.

Lemma populate_closed rec item_set state_id b b' P :
  rec_ok rec → rec_closed rec → closed_except P b →
  populate_lex_state_with rec item_set state_id b = Some b' →
  closed_except P b'
  ∧ lex_state_ids b ⊆ lex_state_ids b'
  ∧ Forall (λ t, is_Some (lex_state_ids b' !! t.2)) (transitions item_set).
Proof.
  intros Hok Hclosed Hb. unfold populate_lex_state_with, add_advance_actions_with.
  destruct (add_advance_actions_on _ _ _ _) as [b1|] eqn:Hadv; [|done].
  simpl. intros [= <-]. simpl.
  by apply (advance_on_closed _ _ _ _ _ P Hok Hclosed) in Hadv.
Qed.

Lemma add_lex_state_closed fuel : rec_closed (add_lex_state fuel).
Proof.
  induction fuel as [|fuel IH]; intros P item_set b id b' Hb; [done|].
  rewrite add_lex_state_S.
  destruct (lex_state_ids b !! item_set) as [id0|] eqn:Hlook; [by intros [= <- <-]|].
  simpl. destruct (populate_lex_state_with _ _ _ _) as [b1|] eqn:Hpop; [|done].
  simpl. intros [= <- <-].
  apply (populate_closed _ _ _ _ _ (λ s, P s ∨ s = item_set)) in Hpop
    as (Hc & Hsub & Hall); [|apply add_lex_state_ok|done|].
  - intros s Hs HP. destruct (decide (s = item_set)) as [->|Hne]; [done|].
    apply Hc; [done|]. intros [?|?]; done.
  - intros s Hs HP. simpl in *.
    assert (s ≠ item_set ∧ ¬ P s) as [Hne HP'] by (split; intros ?; apply HP; auto).
    rewrite lookup_insert_ne in Hs by done.
    eapply Forall_impl; [by apply Hb|]. simpl. intros t [i Hi].
    destruct (decide (item_set = t.2)) as [<-|Hne']; [by rewrite lookup_insert_eq|].
    rewrite lookup_insert_ne by done. by exists i.
Qed.

Lemma build_loop_closed fuel states prev b prev' b' P :
  closed_except P b →
  foldl (build_step lex_grammar fuel) (Some (prev, b)) states = Some (prev', b') →
  closed_except P b'.
Proof.
  revert prev b. induction states as [|p states IH]; intros prev b Hb.
  { by intros [= <- <-]. }
  cbn [foldl].
  destruct (build_step lex_grammar fuel (Some (prev, b)) p) as [[prev1 b1]|] eqn:Hstep;
    [|by rewrite foldl_build_step_None'].
  apply build_step_Some in Hstep as (item_set & id & b1' & _ & Hadd & [= -> ->]).
  apply IH. by eapply add_lex_state_closed.
Qed.

(** X12: when [build] returns, the exploration is complete: every successor
    of an interned item set, and every successor of the item set of the
    error state, is interned. *)
Theorem interned_item_sets_are_closed (fuel : nat) (table table' : ParseTable.t)
    (final : Builder) (error_item_set : LexItemSet) :
  build lex_grammar fuel table = Some (table', final) →
  build_lex_item_set (ParseTable.symbols table) = Some error_item_set →
  (∀ item_set cs successor,
     is_Some (lex_state_ids final !! item_set) →
     (cs, successor) ∈ transitions item_set →
     is_Some (lex_state_ids final !! successor))
  ∧ (∀ cs successor,
       (cs, successor) ∈ transitions error_item_set →
       is_Some (lex_state_ids final !! successor)).
Proof.
  intros Hbuild Herr.
  apply build_from_ok in Hbuild as (b1 & e & Hloop & He & Hpop & _).
  rewrite Herr in He. injection He as <-.
  apply (build_loop_closed _ _ _ _ _ _ (λ _, False)) in Hloop;
    [|intros s [i Hi]; simpl in Hi; by rewrite lookup_empty in Hi].
  apply (populate_closed _ _ _ _ _ (λ _, False)) in Hpop as (Hc & _ & Hall);
    [|apply add_lex_state_ok|apply add_lex_state_closed|done].
  split.
  - intros s cs succ Hs Hin.
    exact (proj1 (Forall_forall _ _) (Hc s Hs (λ x, x)) (cs, succ) Hin).
  - intros cs succ Hin. exact (proj1 (Forall_forall _ _) Hall (cs, succ) Hin).
Qed.

End closure.

(** ** The precedence range of an item set *)

Section precedence_range.
Context `{!Collaborators}.

(** X11: the precedence range of the empty item set is the default range;
    otherwise the range is not empty, its bounds are in order, it covers the
    minimum and the maximum of the precedence metadata of every item, and
    each of its bounds is one of those values. *)
Theorem precedence_range_covers_items (item_set : LexItemSet) :
  let range := precedence_range_for_item_set item_set in
  let values :=
    elements (entries item_set)
      ≫= λ item, [PrecedenceRange.min (get_metadata (rule item) PRECEDENCE);
                  PrecedenceRange.max (get_metadata (rule item) PRECEDENCE)] in
  (entries item_set = ∅ → range = PrecedenceRange.init)
  ∧ (entries item_set ≠ ∅ →
     PrecedenceRange.empty range = false
     ∧ PrecedenceRange.min range ≤ PrecedenceRange.max range
     ∧ PrecedenceRange.min range ∈ values
     ∧ PrecedenceRange.max range ∈ values)
  ∧ (∀ item, item ∈ entries item_set →
       let m := get_metadata (rule item) PRECEDENCE in
       PrecedenceRange.min range ≤ PrecedenceRange.min m ≤ PrecedenceRange.max range
       ∧ PrecedenceRange.min range ≤ PrecedenceRange.max m ≤ PrecedenceRange.max range).
Proof.
  simpl. unfold precedence_range_for_item_set.
  set (f := λ (result : PrecedenceRange.t) (item : LexItem),
              PrecedenceRange.add
                (PrecedenceRange.max (get_metadata (rule item) PRECEDENCE))
                (PrecedenceRange.add
                   (PrecedenceRange.min (get_metadata (rule item) PRECEDENCE)) result)).
  set (vals := λ item : LexItem,
                 [PrecedenceRange.min (get_metadata (rule item) PRECEDENCE);
                  PrecedenceRange.max (get_metadata (rule item) PRECEDENCE)]).
  assert (Hadd : ∀ v r,
    PrecedenceRange.empty (PrecedenceRange.add v r) = false
    ∧ PrecedenceRange.min (PrecedenceRange.add v r) ≤ v
      ≤ PrecedenceRange.max (PrecedenceRange.add v r)
    ∧ (PrecedenceRange.empty r = true →
       PrecedenceRange.min (PrecedenceRange.add v r) = v
       ∧ PrecedenceRange.max (PrecedenceRange.add v r) = v)
    ∧ (PrecedenceRange.empty r = false →
       PrecedenceRange.min (PrecedenceRange.add v r) = Z.min (PrecedenceRange.min r) v
       ∧ PrecedenceRange.max (PrecedenceRange.add v r) = Z.max (PrecedenceRange.max r) v)).
  { intros v r. unfold PrecedenceRange.add. destruct (PrecedenceRange.empty r); simpl;
      split_and!; try done; lia. }
  (* the loop from a range that is not empty *)
  assert (Hloop : ∀ items (known : list Z) acc,
    PrecedenceRange.empty acc = false →
    PrecedenceRange.min acc ≤ PrecedenceRange.max acc →
    PrecedenceRange.min acc ∈ known → PrecedenceRange.max acc ∈ known →
    (∀ v, v ∈ known → PrecedenceRange.min acc ≤ v ≤ PrecedenceRange.max acc) →
    let r := foldl f acc items in
    PrecedenceRange.empty r = false
    ∧ PrecedenceRange.min r ≤ PrecedenceRange.max r
    ∧ PrecedenceRange.min r ∈ known ++ (items ≫= vals)
    ∧ PrecedenceRange.max r ∈ known ++ (items ≫= vals)
    ∧ ∀ v, v ∈ known ++ (items ≫= vals) →
           PrecedenceRange.min r ≤ v ≤ PrecedenceRange.max r).
  { induction items as [|item items IH]; intros known acc Hne Hord Hmin Hmax Hcov.
    { simpl. rewrite app_nil_r. by split_and!. }
    cbn [foldl]. rewrite bind_cons.
    set (v1 := PrecedenceRange.min (get_metadata (rule item) PRECEDENCE)).
    set (v2 := PrecedenceRange.max (get_metadata (rule item) PRECEDENCE)).
    replace (known ++ vals item ++ (items ≫= vals))
      with ((known ++ [v1; v2]) ++ (items ≫= vals)) by by rewrite <-app_assoc.
    destruct (Hadd v1 acc) as (He1 & Hb1 & _ & Hs1). specialize (Hs1 Hne) as [Hmin1 Hmax1].
    destruct (Hadd v2 (PrecedenceRange.add v1 acc)) as (He2 & Hb2 & _ & Hs2).
    specialize (Hs2 He1) as [Hmin2 Hmax2].
    apply IH; unfold f; fold v1 v2; try done.
    - lia.
    - rewrite Hmin2, Hmin1. rewrite !elem_of_app, !elem_of_cons.
      destruct (Z.min_spec (Z.min (PrecedenceRange.min acc) v1) v2) as [[_ ->]|[_ ->]];
        [|by auto].
      destruct (Z.min_spec (PrecedenceRange.min acc) v1) as [[_ ->]|[_ ->]]; auto.
    - rewrite Hmax2, Hmax1. rewrite !elem_of_app, !elem_of_cons.
      destruct (Z.max_spec (Z.max (PrecedenceRange.max acc) v1) v2) as [[_ ->]|[_ ->]];
        [by auto|].
      destruct (Z.max_spec (PrecedenceRange.max acc) v1) as [[_ ->]|[_ ->]]; auto.
    - intros v. rewrite !elem_of_app, !elem_of_cons.
      intros [Hv|[->|[->|[]%elem_of_nil]]]; [specialize (Hcov v Hv)|..]; lia. }
  assert (Hitems : ∀ items, items ≠ [] →
    let r := foldl f PrecedenceRange.init items in
    PrecedenceRange.empty r = false
    ∧ PrecedenceRange.min r ≤ PrecedenceRange.max r
    ∧ PrecedenceRange.min r ∈ items ≫= vals
    ∧ PrecedenceRange.max r ∈ items ≫= vals
    ∧ ∀ v, v ∈ items ≫= vals → PrecedenceRange.min r ≤ v ≤ PrecedenceRange.max r).
  { intros [|item items] Hne; [done|]. cbn [foldl]. rewrite bind_cons.
    set (v1 := PrecedenceRange.min (get_metadata (rule item) PRECEDENCE)).
    set (v2 := PrecedenceRange.max (get_metadata (rule item) PRECEDENCE)).
    destruct (Hadd v1 PrecedenceRange.init) as (He1 & Hb1 & Hs1 & _).
    specialize (Hs1 eq_refl) as [Hmin1 Hmax1].
    destruct (Hadd v2 (PrecedenceRange.add v1 PrecedenceRange.init)) as (He2 & Hb2 & _ & Hs2).
    specialize (Hs2 He1) as [Hmin2 Hmax2].
    apply (Hloop items (vals item)); unfold f, vals; fold v1 v2; try done.
    - lia.
    - rewrite Hmin2, Hmin1, !elem_of_cons.
      destruct (Z.min_spec v1 v2) as [[_ ->]|[_ ->]]; auto.
    - rewrite Hmax2, Hmax1, !elem_of_cons.
      destruct (Z.max_spec v1 v2) as [[_ ->]|[_ ->]]; auto.
    - intros v. rewrite !elem_of_cons. intros [->|[->|[]%elem_of_nil]]; lia. }
  split_and!.
  - intros ->. by rewrite elements_empty.
  - intros Hne. destruct (Hitems (elements (entries item_set))) as (? & ? & ? & ? & _);
      [|done]. by intros ?%elements_empty_inv%leibniz_equiv.
  - intros item Hin.
    destruct (Hitems (elements (entries item_set))) as (_ & _ & _ & _ & Hcov).
    { intros Hnil. apply elem_of_elements in Hin. rewrite Hnil in Hin.
      by apply elem_of_nil in Hin. }
    split; apply Hcov; apply list_elem_of_bind; exists item;
      (split; [|by apply elem_of_elements]); unfold vals; set_solver.
Qed.

End precedence_range.

(** ** The further properties on the concrete grammars *)

Lemma a_star_start_items :
  build_lex_item_set (H := model) a_star_grammar {[ token0 ]} = Some a_star_start.
Proof. by_computation. Defined.

Lemma a_star_error_items :
  build_lex_item_set (H := model) a_star_grammar {[ token0; Model.END_OF_INPUT ]}
  = Some a_star_error.
Proof. by_computation. Defined.

Lemma after_a_populate :
  populate_lex_state (H := model) ab_grammar 3 after_a 0 after_a_builder
  = Some after_a_advanced.
Proof. by_computation. Defined.

Lemma add_token_start_effect_witness :
  let tbl := lex_table a_star_interned_start in
  let tbl' := add_token_start (H := model) a_star_loop 1 tbl in
  (is_token_start (LexTable.state 1 tbl') = true
   ↔ is_token_start (LexTable.state 1 tbl) = true
     ∨ ∃ item, item ∈ entries a_star_loop
         ∧ LexItem_is_token_start (Collaborators := model) item = true)
  ∧ default_action (LexTable.state 1 tbl') = default_action (LexTable.state 1 tbl)
  ∧ actions (LexTable.state 1 tbl') = actions (LexTable.state 1 tbl)
  ∧ untouched (λ id, id ≠ 1) tbl tbl'
  ∧ length (LexTable.states tbl') = length (LexTable.states tbl).
Proof.
  apply (add_token_start_effect (H := model) a_star_loop 1
           (lex_table a_star_interned_start)).
  by_computation.
Defined.

Lemma add_accept_token_actions_effect_witness :
  let tbl := lex_table after_a_builder in
  let tbl' := add_accept_token_actions (H := model) ab_grammar after_a 0 tbl in
  (default_action (LexTable.state 0 tbl') = default_action (LexTable.state 0 tbl)
   ∨ ∃ item, item ∈ entries after_a
       ∧ is_done (get_completion_status (Collaborators := model) (rule item)) = true
       ∧ default_action (LexTable.state 0 tbl')
         = LexAction.Accept (lhs item)
             (precedence (get_completion_status (Collaborators := model) (rule item))))
  ∧ ((∀ item, item ∈ entries after_a →
        is_done (get_completion_status (Collaborators := model) (rule item)) = false) →
     tbl' = tbl)
  ∧ actions (LexTable.state 0 tbl') = actions (LexTable.state 0 tbl)
  ∧ is_token_start (LexTable.state 0 tbl') = is_token_start (LexTable.state 0 tbl)
  ∧ untouched (λ id, id ≠ 0) tbl tbl'
  ∧ length (LexTable.states tbl') = length (LexTable.states tbl).
Proof.
  apply (add_accept_token_actions_effect (H := model) ab_grammar after_a 0
           (lex_table after_a_builder)).
  by_computation.
Defined.

Lemma add_lex_state_appends_witness :
  LexTable.states (lex_table Builder_init)
    `prefix_of` LexTable.states (lex_table a_star_interned_start)
  ∧ LexTable.error_state (lex_table a_star_interned_start)
    = LexTable.error_state (lex_table Builder_init)
  ∧ lex_state_ids Builder_init ⊆ lex_state_ids a_star_interned_start
  ∧ lex_state_ids a_star_interned_start !! a_star_start = Some 0
  ∧ (lex_state_ids Builder_init !! a_star_start = None →
     0 = Z.of_nat (length (LexTable.states (lex_table Builder_init)))
     ∧ (length (LexTable.states (lex_table Builder_init))
        < length (LexTable.states (lex_table a_star_interned_start)))%nat).
Proof.
  exact (add_lex_state_appends (H := model) a_star_grammar 5 a_star_start
           Builder_init a_star_interned_start 0 a_star_add_start).
Defined.

Lemma populate_lex_state_effect_witness :
  default_action (LexTable.state 0 (lex_table after_a_advanced))
  = default_action
      (LexTable.state 0
         (add_accept_token_actions (H := model) ab_grammar after_a 0
            (lex_table after_a_builder)))
  ∧ (is_token_start (LexTable.state 0 (lex_table after_a_advanced)) = true
     ↔ is_token_start (LexTable.state 0 (lex_table after_a_builder)) = true
       ∨ ∃ item, item ∈ entries after_a
           ∧ LexItem_is_token_start (Collaborators := model) item = true)
  ∧ untouched (λ id, id ≠ 0) (lex_table after_a_builder) (lex_table after_a_advanced)
  ∧ lex_state_ids after_a_builder ⊆ lex_state_ids after_a_advanced.
Proof.
  apply (populate_lex_state_effect (H := model) ab_grammar 3 after_a 0
           after_a_builder after_a_advanced).
  - by_computation.
  - exact after_a_populate.
Defined.

Lemma interning_is_one_to_one_witness :
  (∀ s1 s2 id, lex_state_ids a_star_final !! s1 = Some id →
               lex_state_ids a_star_final !! s2 = Some id → s1 = s2)
  ∧ (∀ s id, lex_state_ids a_star_final !! s = Some id →
       0 ≤ id < Z.of_nat (length (LexTable.states (lex_table a_star_final))))
  ∧ (∀ i, (i < length (LexTable.states (lex_table a_star_final)))%nat →
       ∃ s, lex_state_ids a_star_final !! s = Some (Z.of_nat i))
  ∧ length (LexTable.states (lex_table a_star_final))
    = size (lex_state_ids a_star_final).
Proof.
  exact (interning_is_one_to_one (H := model) a_star_grammar 5 a_star_table
           a_star_result.2 a_star_final a_star_build).
Defined.

Lemma lex_state_id_identifies_item_set_witness :
  lex_state_id (mkParseState {[ token0 ]} 0)
  = lex_state_id (mkParseState {[ token0; Model.END_OF_INPUT ]} 2)
  ↔ a_star_start = a_star_error.
Proof.
  apply (lex_state_id_identifies_item_set (H := model) a_star_grammar 5 a_star_table
           a_star_result.2 a_star_final
           (mkParseState {[ token0 ]} 0)
           (mkParseState {[ token0; Model.END_OF_INPUT ]} 2)
           a_star_start a_star_error).
  - exact a_star_build.
  - apply list_elem_of_here.
  - apply list_elem_of_further, list_elem_of_further, list_elem_of_here.
  - exact a_star_start_items.
  - exact a_star_error_items.
Defined.

Lemma build_keeps_parse_states_witness :
  expected_inputs <$> ParseTable.states a_star_result.2
  = expected_inputs <$> ParseTable.states a_star_table
  ∧ length (ParseTable.states a_star_result.2) = length (ParseTable.states a_star_table)
  ∧ ParseTable.symbols a_star_result.2 = ParseTable.symbols a_star_table.
Proof.
  exact (build_keeps_parse_states (H := model) a_star_grammar 5 a_star_table
           a_star_result.2 a_star_final a_star_build).
Defined.

Lemma built_table_is_sound_witness :
  (∀ item_set id, lex_state_ids a_star_final !! item_set = Some id →
     state_sound (H := model) a_star_final item_set
       (LexTable.state id (lex_table a_star_final)))
  ∧ state_sound (H := model) a_star_final a_star_error
      (LexTable.error_state (lex_table a_star_final)).
Proof.
  exact (built_table_is_sound (H := model) a_star_grammar 5 a_star_table
           a_star_result.2 a_star_final a_star_error a_star_build a_star_error_items).
Defined.

Lemma ab_build :
  build (H := model) ab_grammar 5 ab_table = Some (ab_result, ab_final).
Proof. by_computation. Defined.

(** State 0 of the table of [ab_grammar] stores an advance on [a]. *)
Example ab_start_state_advances_on_a :
  actions ab_start_state !! ({[ 97%N ]} : gset N)
  = Some (LexAction.Advance 1 (PrecedenceRange.mk 0 5 false)).
Proof. by_computation. Qed.

Lemma built_table_has_no_dangling_action_witness :
  (∀ cs a, actions ab_start_state !! cs = Some a →
     ∃ id range, a = LexAction.Advance id range
                 ∧ 0 ≤ id < Z.of_nat (length (LexTable.states (lex_table ab_final))))
  ∧ (default_action ab_start_state = LexAction.Error
     ∨ ∃ symbol precedence,
         default_action ab_start_state = LexAction.Accept symbol precedence).
Proof.
  apply (built_table_has_no_dangling_action (H := model) ab_grammar 5 ab_table
           ab_result ab_final ab_start_state ab_build).
  left. apply list_elem_of_here.
Defined.

Lemma build_lex_item_set_union_witness :
  build_lex_item_set (H := model) a_star_grammar
    ({[ token0 ]} ∪ {[ token0; Model.END_OF_INPUT ]})
  = Some (mkLexItemSet (entries a_star_start ∪ entries a_star_error))
  ∧ (({[ token0 ]} : gset Symbol) ⊆ {[ token0; Model.END_OF_INPUT ]} →
     entries a_star_start ⊆ entries a_star_error)
  ∧ build_lex_item_set (H := model) a_star_grammar ∅ = Some (mkLexItemSet ∅).
Proof.
  exact (build_lex_item_set_union (H := model) a_star_grammar
           {[ token0 ]} {[ token0; Model.END_OF_INPUT ]} a_star_start a_star_error
           a_star_start_items a_star_error_items).
Defined.

Lemma interned_item_sets_are_closed_witness :
  (∀ item_set cs successor,
     is_Some (lex_state_ids a_star_final !! item_set) →
     (cs, successor) ∈ transitions (Collaborators := model) item_set →
     is_Some (lex_state_ids a_star_final !! successor))
  ∧ (∀ cs successor,
       (cs, successor) ∈ transitions (Collaborators := model) a_star_error →
       is_Some (lex_state_ids a_star_final !! successor)).
Proof.
  exact (interned_item_sets_are_closed (H := model) a_star_grammar 5 a_star_table
           a_star_result.2 a_star_final a_star_error a_star_build a_star_error_items).
Defined.
